(** * Batched beam search: [allennlp/state_machines/beam_search.py]

    A shallow embedding of the [BeamSearch] class and the properties of its
    constructor, of [constrained_to] and of [search].

    Conventions of the embedding.
    - Python integers are [Z]; a [float] score is an exact number or NaN
      ([pyfloat]): the engine only negates scores and compares them with [<],
      so only the order matters, and NaN is the float that has none.
    - A Python exception is the [Raise] outcome.
    - [defaultdict(list)] and [dict] are association lists in insertion order,
      the order in which Python iterates over [items()].
    - [self.beams], the one attribute that [search] mutates, is threaded
      through a state-and-error monad together with the record of the calls
      made to the transition function. *)

From stdpp Require Import base option list gmap.
From Stdlib Require Import ZArith Lia Sorting.Sorted.

Local Open Scope Z_scope.

(** ** Exceptions and outcomes *)

Inductive exn : Type :=
| IndexError
| RuntimeError.

Inductive outcome (A : Type) : Type :=
| Ok (a : A)
| Raise (e : exn).

Arguments Ok {A} a.
Arguments Raise {A} e.

Definition obind {A B} (c : outcome A) (k : A → outcome B) : outcome B :=
  match c with
  | Ok a => k a
  | Raise e => Raise e
  end.

Notation "'do' x <- c1 ; c2" := (obind c1 (λ x, c2))
  (at level 10, x pattern, c1 at level 100, c2 at level 200).

Fixpoint ofoldl {A B} (f : B → A → outcome B) (b : B) (l : list A) : outcome B :=
  match l with
  | [] => Ok b
  | x :: l' => do b' <- f b x; ofoldl f b' l'
  end.

Fixpoint omap {A B} (f : A → outcome B) (l : list A) : outcome (list B) :=
  match l with
  | [] => Ok []
  | x :: l' => do y <- f x; do ys <- omap f l'; Ok (y :: ys)
  end.

Definition fails {A} (c : outcome A) : Prop := ∃ e, c = Raise e.

#[global] Instance exn_eq_dec : EqDecision exn.
Proof. solve_decision. Defined.

#[global] Instance outcome_eq_dec {A} `{EqDecision A} : EqDecision (outcome A).
Proof. solve_decision. Defined.

(** ** Floats *)

(** [score[0].item()] is a Python float.  The floats other than NaN (the
    infinities among them) are ordered as numbers are, and are exact numbers
    here; every [<] with NaN is false, and [-nan] is NaN. *)
Inductive pyfloat : Type :=
| Num (x : Z)
| NaN.

#[global] Instance pyfloat_eq_dec : EqDecision pyfloat.
Proof. solve_decision. Defined.

(** [a < b] *)
Definition float_lt (a b : pyfloat) : bool :=
  match a, b with
  | Num x, Num y => x <? y
  | _, _ => false
  end.

(** [-a] *)
Definition float_neg (a : pyfloat) : pyfloat :=
  match a with
  | Num x => Num (- x)
  | NaN => NaN
  end.

(** ** Python sequences *)

(** [l[i]], negative indices counting from the end. *)
Definition py_index {A} (l : list A) (i : Z) : outcome A :=
  let n := Z.of_nat (length l) in
  let j := if i <? 0 then i + n else i in
  if (0 <=? j) && (j <? n)
  then match l !! Z.to_nat j with
       | Some x => Ok x
       | None => Raise IndexError
       end
  else Raise IndexError.

(** [l[:k]]: a negative [k] drops the last [-k] elements. *)
Definition py_slice_to {A} (l : list A) (k : Z) : list A :=
  if k <? 0
  then take (Z.to_nat (Z.of_nat (length l) + k)) l
  else take (Z.to_nat k) l.

(** [l[i].append(x)] on a list of lists. *)
Definition py_append_at {A} (l : list (list A)) (i : Z) (x : A) : outcome (list (list A)) :=
  do row <- py_index l i;
  let n := Z.of_nat (length l) in
  let j := if i <? 0 then i + n else i in
  Ok (<[Z.to_nat j := row ++ [x]]> l).

(** ** [defaultdict(list)] in insertion order *)

Section defaultdict.
Context {A : Type}.

Definition ddict := list (Z * list A).

(** [d[k].append(v)] *)
Fixpoint dd_append (k : Z) (v : A) (d : ddict) : ddict :=
  match d with
  | [] => [(k, [v])]
  | (k', l) :: d' =>
      if decide (k = k') then (k', l ++ [v]) :: d' else (k', l) :: dd_append k v d'
  end.

(** the value of [d[k]] *)
Fixpoint dd_get (k : Z) (d : ddict) : option (list A) :=
  match d with
  | [] => None
  | (k', l) :: d' => if decide (k = k') then Some l else dd_get k d'
  end.

(** reading [d[k]] inserts the key with an empty list when it is missing *)
Definition dd_touch (k : Z) (d : ddict) : ddict :=
  match dd_get k d with
  | Some _ => d
  | None => d ++ [(k, [])]
  end.

(** the appends of a sequence of keyed values, one after the other *)
Definition dd_extend (d : ddict) (kvs : list (Z * A)) : ddict :=
  foldl (λ d kv, dd_append kv.1 kv.2 d) d kvs.

(** the values filed under [k] *)
Definition values_of (k : Z) (kvs : list (Z * A)) : list A :=
  (filter (λ kv, kv.1 = k) kvs).*2.
End defaultdict.

Arguments ddict A : clear implicits.

(** ** The consumed interfaces *)

(** [State]: a group of hypotheses.  [is_finished] raises on a group whose
    size is not 1; that, like any other failure, is a [Raise]. *)
Class State (StateType : Type) := {
  batch_indices : StateType → list Z;
  score : StateType → list pyfloat;
  action_history : StateType → list (list Z);
  is_finished : StateType → outcome bool;
  combine_states : list StateType → StateType;
}.

(** [TransitionFunction.take_step(state, max_actions, allowed_actions)]; the
    generator is drained within the step, so it is the list it yields. *)
Record TransitionFunction (StateType : Type) := {
  take_step : StateType → Z → option (list Z) → outcome (list StateType);
}.

Arguments take_step {StateType} _ _ _ _.

(** Modelled from the spec: [util.construct_prefix_tree] is not part of the
    sources.  For each batch element it maps every proper prefix of a target
    sequence, the empty prefix included, to the single next action permitted
    at that prefix. *)
Fixpoint prefix_tree (history : list Z) (target_sequence : list Z) : gmap (list Z) Z :=
  match target_sequence with
  | [] => ∅
  | action :: rest => <[history := action]> (prefix_tree (history ++ [action]) rest)
  end.

Definition construct_prefix_tree (targets : list (list (list Z))) : list (gmap (list Z) Z) :=
  (λ instance_targets, foldr (λ seq m, prefix_tree [] seq ∪ m) ∅ instance_targets) <$> targets.

(** ** The engine *)

Definition beam_log := list (list (pyfloat * list Z)).

Record BeamSearch := {
  _beam_size : Z;
  _per_node_beam_size : Z;
  _allowed_transitions : option (gmap (list Z) Z);
  beams : option beam_log;
}.

(** [per_node_beam_size or beam_size]: [None] and [0] are falsy. *)
Definition or_default (per_node_beam_size : option Z) (beam_size : Z) : Z :=
  match per_node_beam_size with
  | Some p => if decide (p = 0) then beam_size else p
  | None => beam_size
  end.

(** [initial_sequence] is the tensor flattened by [view(1, 1, -1)]. *)
Definition __init__ (beam_size : Z) (per_node_beam_size : option Z)
    (initial_sequence : option (list Z)) (keep_beam_details : bool) : outcome BeamSearch :=
  do allowed <- match initial_sequence with
                | Some seq =>
                    do tree <- py_index (construct_prefix_tree [[seq]]) 0; Ok (Some tree)
                | None => Ok None
                end;
  Ok {| _beam_size := beam_size;
        _per_node_beam_size := or_default per_node_beam_size beam_size;
        _allowed_transitions := allowed;
        beams := if keep_beam_details then Some [] else None |}.

(** [keep_beam_details] defaults to [True]. *)
Definition constrained_to (self : BeamSearch) (initial_sequence : list Z)
    (keep_beam_details : option bool) : outcome BeamSearch :=
  __init__ (_beam_size self) (Some (_per_node_beam_size self)) (Some initial_sequence)
           (default true keep_beam_details).

(** [self.constrained_to(...)]: what the call returns, and [self] after the
    call; the method assigns no attribute of [self]. *)
Definition constrained_to_call (self : BeamSearch) (initial_sequence : list Z)
    (keep_beam_details : option bool) : outcome BeamSearch * BeamSearch :=
  (constrained_to self initial_sequence keep_beam_details, self).

(** the same engine, holding another log if it holds one *)
Definition with_log (self : BeamSearch) (log : beam_log) : BeamSearch :=
  {| _beam_size := _beam_size self;
     _per_node_beam_size := _per_node_beam_size self;
     _allowed_transitions := _allowed_transitions self;
     beams := (λ _, log) <$> beams self |}.

(** the same engine, holding no log *)
Definition without_log (self : BeamSearch) : BeamSearch :=
  {| _beam_size := _beam_size self;
     _per_node_beam_size := _per_node_beam_size self;
     _allowed_transitions := _allowed_transitions self;
     beams := None |}.

Definition same_config (self self' : BeamSearch) : Prop :=
  _beam_size self = _beam_size self' ∧
  _per_node_beam_size self = _per_node_beam_size self' ∧
  _allowed_transitions self = _allowed_transitions self'.

(** ** State and errors: [self.beams] and the calls to the transition function *)

Section search.
Context {StateType : Type} `{StateOps : State StateType}.

(** One invocation of [take_step]: its three arguments. *)
Record call := {
  call_state : StateType;
  call_max_actions : Z;
  call_allowed_actions : option (list Z);
}.

Record store := {
  st_beams : option beam_log;
  st_calls : list call;
}.

Definition M (A : Type) : Type := store → outcome A * store.

Definition ret {A} (a : A) : M A := λ st, (Ok a, st).

Definition bind {A B} (c : M A) (k : A → M B) : M B :=
  λ st, match c st with
        | (Ok a, st') => k a st'
        | (Raise e, st') => (Raise e, st')
        end.

Definition lift {A} (c : outcome A) : M A := λ st, (c, st).

Notation "'doM' x <- c1 ; c2" := (bind c1 (λ x, c2))
  (at level 10, x pattern, c1 at level 100, c2 at level 200).

(** [self.beams.clear()] when the log is kept *)
Definition clear_beams : M unit :=
  λ st, (Ok tt, {| st_beams := (λ _, []) <$> st_beams st; st_calls := st_calls st |}).

(** the call to [take_step], recorded *)
Definition call_take_step (transition_function : TransitionFunction StateType)
    (grouped_state : StateType) (max_actions : Z) (allowed_actions : option (list Z))
    : M (list StateType) :=
  λ st, (take_step transition_function grouped_state max_actions allowed_actions,
         {| st_beams := st_beams st;
            st_calls := st_calls st ++ [{| call_state := grouped_state;
                                           call_max_actions := max_actions;
                                           call_allowed_actions := allowed_actions |}] |}).

(** [(state.score[0].item(), state.action_history[0])] *)
Definition beam_pair (state : StateType) : outcome (pyfloat * list Z) :=
  do s <- py_index (score state) 0;
  do h <- py_index (action_history state) 0;
  Ok (s, h).

(** [if self.beams is not None: self.beams.append([... for state in batch_states])] *)
Definition record_beam (batch_states : list StateType) : M unit :=
  λ st, match st_beams st with
        | None => (Ok tt, st)
        | Some log =>
            match omap beam_pair batch_states with
            | Ok entry => (Ok tt, {| st_beams := Some (log ++ [entry]); st_calls := st_calls st |})
            | Raise e => (Raise e, st)
            end
        end.

(** Lines 108-113: the restriction passed to the transition function. *)
Definition allowed_actions_for (self : BeamSearch) (grouped_state : StateType)
    : outcome (option (list Z)) :=
  match _allowed_transitions self with
  | Some allowed_transitions =>
      if decide (allowed_transitions = ∅) then Ok None
      else
        do key <- py_index (action_history grouped_state) 0;
        match allowed_transitions !! key with
        | Some action => Ok (Some [action])
        | None => Ok None
        end
  | None => Ok None
  end.

(** Lines 121-127: one candidate is filed under its batch index. *)
Definition file_candidate (num_steps step_num : Z) (keep_final_unfinished_states : bool)
    (acc : ddict StateType * ddict StateType) (next_state : StateType)
    : outcome (ddict StateType * ddict StateType) :=
  let '(finished_states, next_states) := acc in
  do batch_index <- py_index (batch_indices next_state) 0;
  do finished <- is_finished next_state;
  if finished : bool
  then Ok (dd_append batch_index next_state finished_states, next_states)
  else
    let finished_states :=
      if bool_decide (step_num = num_steps) && keep_final_unfinished_states
      then dd_append batch_index next_state finished_states
      else finished_states in
    Ok (finished_states, dd_append batch_index next_state next_states).

(** Lines 128-137: the surviving beam of every batch index, in the order
    of [next_states.items()]. *)
Fixpoint prune (self : BeamSearch) (next_states : ddict StateType) (states : list StateType)
    : M (list StateType) :=
  match next_states with
  | [] => ret states
  | (batch_index, batch_states) :: rest =>
      let states := states ++ py_slice_to batch_states (_beam_size self) in
      doM _ <- record_beam batch_states;
      prune self rest states
  end.

(** The body of the [while] loop, lines 102-138. *)
Definition search_step (self : BeamSearch) (num_steps : Z)
    (transition_function : TransitionFunction StateType)
    (keep_final_unfinished_states : bool)
    (step_num : Z) (states : list StateType) (finished_states : ddict StateType)
    : M (list StateType * ddict StateType) :=
  let grouped_state := combine_states states in
  doM allowed_actions <- lift (allowed_actions_for self grouped_state);
  doM candidates <- call_take_step transition_function grouped_state
                      (_per_node_beam_size self) allowed_actions;
  doM filed <- lift (ofoldl (file_candidate num_steps step_num keep_final_unfinished_states)
                       (finished_states, []) candidates);
  let '(finished_states, next_states) := filed in
  doM states <- prune self next_states [];
  ret (states, finished_states).

(** [while states and step_num <= num_steps]: [remaining] is the number of
    values [step_num] can still take, [num_steps - step_num + 1]. *)
Fixpoint search_loop (self : BeamSearch) (num_steps : Z)
    (transition_function : TransitionFunction StateType)
    (keep_final_unfinished_states : bool)
    (remaining : nat) (step_num : Z) (states : list StateType)
    (finished_states : ddict StateType)
    : M (list StateType * ddict StateType) :=
  match remaining, states with
  | S remaining', _ :: _ =>
      doM r <- search_step self num_steps transition_function
                 keep_final_unfinished_states step_num states finished_states;
      search_loop self num_steps transition_function keep_final_unfinished_states
        remaining' (step_num + 1) r.1 r.2
  | _, _ => ret (states, finished_states)
  end.

(** Lines 143-149: one finished state of batch index 0 goes into the log
    at the depth of its history. *)
Definition backfill_state (log : beam_log) (state : StateType) : outcome beam_log :=
  do s <- py_index (score state) 0;
  do history <- py_index (action_history state) 0;
  let log := log ++ replicate (length history - length log)%nat [] in
  py_append_at log (Z.of_nat (length history) - 1) (s, history).

(** The [for] loop of line 142; when a state raises, the log keeps what the
    states before it have added. *)
Fixpoint backfill_states (log : beam_log) (states : list StateType) : outcome unit * beam_log :=
  match states with
  | [] => (Ok tt, log)
  | state :: rest =>
      match backfill_state log state with
      | Ok log' => backfill_states log' rest
      | Raise e => (Raise e, log)
      end
  end.

(** Lines 141-149.  Reading [finished_states[0]] creates the key. *)
Definition backfill (finished_states : ddict StateType) : M (ddict StateType) :=
  λ st, match st_beams st with
        | None => (Ok finished_states, st)
        | Some log =>
            let finished_states := dd_touch 0 finished_states in
            let r := backfill_states log (default [] (dd_get 0 finished_states)) in
            (do _ <- r.1; Ok finished_states,
             {| st_beams := Some r.2; st_calls := st_calls st |})
        end.

(** [list.sort(key=lambda x: x[0])]: a stable sort by ascending key that
    compares keys with [<] only.  On keys without NaN a stable sort has one
    result, computed here by insertion.  A list in which no key is [<] the
    key before it is one ascending run for [list.sort], which leaves it as
    it is, and so does the insertion.  On any other list with a NaN key the
    result of [list.sort] is a permutation that depends on the version of
    CPython; of [py_sort] on such a list only that it permutes is used. *)
Fixpoint sort_insert {A} (x : pyfloat * A) (l : list (pyfloat * A)) : list (pyfloat * A) :=
  match l with
  | [] => [x]
  | y :: l' => if float_lt y.1 x.1 then y :: sort_insert x l' else x :: y :: l'
  end.

Fixpoint py_sort {A} (l : list (pyfloat * A)) : list (pyfloat * A) :=
  match l with
  | [] => []
  | x :: l' => sort_insert x (py_sort l')
  end.

(** Lines 155-157 for one batch index. *)
Definition rank_batch (self : BeamSearch) (batch_states : list StateType)
    : outcome (list StateType) :=
  do finished_to_sort <-
    omap (λ state, do s <- py_index (score state) 0; Ok (float_neg s, state)) batch_states;
  let finished_to_sort := py_sort finished_to_sort in
  Ok ((py_slice_to finished_to_sort (_beam_size self)).*2).

(** Lines 151-158. *)
Definition rank (self : BeamSearch) (finished_states : ddict StateType)
    : outcome (list (Z * list StateType)) :=
  omap (λ '(batch_index, batch_states),
          do best <- rank_batch self batch_states; Ok (batch_index, best))
       finished_states.

(** Lines 93-138: [search] up to the end of the loop; the active states
    and the finished-states accumulator at that point. *)
Definition search_steps (self : BeamSearch) (num_steps : Z) (initial_state : StateType)
    (transition_function : TransitionFunction StateType)
    (keep_final_unfinished_states : bool) : M (list StateType * ddict StateType) :=
  doM _ <- clear_beams;
  search_loop self num_steps transition_function keep_final_unfinished_states
    (Z.to_nat num_steps) 1 [initial_state] [].

(** Lines 93-149: the finished-states accumulator as it stands when the
    ranking starts. *)
Definition search_finished (self : BeamSearch) (num_steps : Z) (initial_state : StateType)
    (transition_function : TransitionFunction StateType)
    (keep_final_unfinished_states : bool) : M (ddict StateType) :=
  doM r <- search_steps self num_steps initial_state transition_function
             keep_final_unfinished_states;
  backfill r.2.

Definition search (self : BeamSearch) (num_steps : Z) (initial_state : StateType)
    (transition_function : TransitionFunction StateType)
    (keep_final_unfinished_states : bool) : M (list (Z * list StateType)) :=
  doM finished_states <- search_finished self num_steps initial_state transition_function
                           keep_final_unfinished_states;
  lift (rank self finished_states).

(** A call of the method on the object [self]: the log it holds is the
    initial store and no call has been made yet. *)
Definition enter (self : BeamSearch) : store :=
  {| st_beams := beams self; st_calls := [] |}.

Definition leave (self : BeamSearch) (st : store) : BeamSearch :=
  {| _beam_size := _beam_size self;
     _per_node_beam_size := _per_node_beam_size self;
     _allowed_transitions := _allowed_transitions self;
     beams := st_beams st |}.

(** What [self.search(...)] returns or raises, and [self] afterwards. *)
Definition search_call (self : BeamSearch) (num_steps : Z) (initial_state : StateType)
    (transition_function : TransitionFunction StateType)
    (keep_final_unfinished_states : bool)
    : outcome (list (Z * list StateType)) * BeamSearch :=
  let r := search self num_steps initial_state transition_function
             keep_final_unfinished_states (enter self) in
  (r.1, leave self r.2).
End search.

Arguments call StateType : clear implicits.
Arguments M StateType A : clear implicits.
Arguments store StateType : clear implicits.

(** ** The vocabulary of the properties *)

(** the distinct elements of a list, in the order of their first occurrence *)
Fixpoint first_seen {K} `{EqDecision K} (l : list K) : list K :=
  match l with
  | [] => []
  | x :: l' => x :: filter (λ y, y ≠ x) (first_seen l')
  end.

(** a float that is not NaN *)
Definition number (a : pyfloat) : Prop := ∃ x, a = Num x.

(** [a <= b] on numbers; it holds of no pair with a NaN *)
Definition float_le (a b : pyfloat) : Prop :=
  match a, b with
  | Num x, Num y => x ≤ y
  | _, _ => False
  end.

(** the order of the keys of the final sort *)
Definition key_le {A} (x y : pyfloat * A) : Prop := float_le x.1 y.1.

Section vocabulary.
Context {StateType : Type} `{StateOps : State StateType}.
Implicit Types (state : StateType) (self : BeamSearch) (st : store StateType)
  (candidates states : list StateType) (finished_states : ddict StateType)
  (transition_function : TransitionFunction StateType).

(** [state.score[0]] *)
Definition score0 state : option pyfloat := head (score state).

(** the score of the state is a number, not NaN *)
Definition scored state : Prop := ∃ x, score0 state = Some (Num x).

(** the first state scores at least as much as the second: both scores are
    numbers *)
Definition score_ge (s1 s2 : StateType) : Prop :=
  ∃ x y, score0 s1 = Some (Num x) ∧ score0 s2 = Some (Num y) ∧ y ≤ x.

(** a pair of the list that is sorted holds the negated score of its state *)
Definition keyed (p : pyfloat * StateType) : Prop := score0 p.2 = Some (float_neg p.1).

(** [state.batch_indices[0]] *)
Definition batch_index0 state : option Z := head (batch_indices state).

(** the candidates that are not finished, in the order of the transition function *)
Definition unfinished candidates : list StateType :=
  filter (λ state, is_finished state = Ok false) candidates.

(** the states of each batch index, the batch indices in the order of their
    first state *)
Definition by_batch states : list (list StateType) :=
  (λ b, filter (λ state, batch_index0 state = b) states)
    <$> first_seen (batch_index0 <$> states).

(** the candidates that enter the finished-states accumulator at a step *)
Definition retained (last_step_kept : bool) candidates : list StateType :=
  if last_step_kept then candidates
  else filter (λ state, is_finished state = Ok true) candidates.

Definition key state : Z := default 0 (batch_index0 state).
Definition tag state : Z * StateType := (key state, state).

(** what a computation appends to the log, when there is one *)
Definition logs (st st' : store StateType) (groups : list (list StateType)) : Prop :=
  match st_beams st with
  | None => st_beams st' = None
  | Some log =>
      ∃ entries, omap (omap beam_pair) groups = Ok entries ∧
                 st_beams st' = Some (log ++ entries)
  end.

(** the step on [states] invokes the transition function once, on the
    combined state, with [max_actions = per_node_beam_size] and the
    restriction [allowed]: the call is recorded, and the step does what the
    answer of [take_step] to these three arguments makes it do.  When
    [take_step] raises, the step raises the same exception; when the step
    completes, [take_step] has answered, and the step has filed and pruned
    the candidates of the answer; and the step completes on every answer
    whose candidates have a first batch index and a returning [is_finished]
    and, where the log is kept, a first score and a first history. *)
Definition invokes self num_steps transition_function keep step_num states finished_states
    st (allowed : option (list Z)) : Prop :=
  allowed_actions_for self (combine_states states) = Ok allowed ∧
  st_calls (search_step self num_steps transition_function keep step_num
              states finished_states st).2
  = st_calls st ++ [{| call_state := combine_states states;
                       call_max_actions := _per_node_beam_size self;
                       call_allowed_actions := allowed |}] ∧
  (∀ e,
      take_step transition_function (combine_states states) (_per_node_beam_size self)
        allowed = Raise e →
      (search_step self num_steps transition_function keep step_num
         states finished_states st).1 = Raise e) ∧
  (∀ states' finished_states' st',
      search_step self num_steps transition_function keep step_num states finished_states st
        = (Ok (states', finished_states'), st') →
      ∃ candidates,
        take_step transition_function (combine_states states) (_per_node_beam_size self)
          allowed = Ok candidates ∧
        states' = concat ((λ l, py_slice_to l (_beam_size self))
                            <$> by_batch (unfinished candidates)) ∧
        finished_states'
        = dd_extend finished_states
            (tag <$> retained (bool_decide (step_num = num_steps) && keep) candidates)) ∧
  (∀ candidates,
      take_step transition_function (combine_states states) (_per_node_beam_size self)
        allowed = Ok candidates →
      Forall (λ state, is_Some (batch_index0 state) ∧ ∃ f, is_finished state = Ok f)
             candidates →
      (is_Some (st_beams st) →
       Forall (λ state, ∃ pair, beam_pair state = Ok pair) (unfinished candidates)) →
      ∃ st',
        search_step self num_steps transition_function keep step_num states finished_states st
        = (Ok (concat ((λ l, py_slice_to l (_beam_size self))
                         <$> by_batch (unfinished candidates)),
               dd_extend finished_states
                 (tag <$> retained (bool_decide (step_num = num_steps) && keep) candidates)),
           st')).

(** [candidates] is what the transition function answered to the call [c] *)
Definition answers transition_function (c : call StateType) (candidates : list StateType)
    : Prop :=
  take_step transition_function (call_state c) (call_max_actions c) (call_allowed_actions c)
  = Ok candidates.

(** the active states that a search of [num_steps] steps leaves behind *)
Definition active_after self num_steps initial_state transition_function
    (active : list StateType) : Prop :=
  ∃ finished_states st',
    search_steps self num_steps initial_state transition_function false (enter self)
    = (Ok (active, finished_states), st').

(** a computation neither creates nor drops the log *)
Definition keeps_log {A} (c : M StateType A) : Prop :=
  ∀ st, is_Some (st_beams (c st).2) ↔ is_Some (st_beams st).

Definition erase st : store StateType := {| st_beams := None; st_calls := st_calls st |}.

(** a computation that succeeds with a log succeeds without one, with the
    same result *)
Definition erasable {A} (c : M StateType A) : Prop :=
  ∀ st a st', c st = (Ok a, st') → c (erase st) = (Ok a, erase st').
End vocabulary.

(** ** A concrete state space

    Group members are triples of a batch index, a score and an action
    history; a group is the list of its members.  A member is finished when
    its history ends with the action [9]. *)

Module Tree.
Record member := {
  m_batch : Z;
  m_score : Z;
  m_history : list Z;
}.

Definition group := list member.

Definition finished (m : member) : bool :=
  match last (m_history m) with
  | Some a => bool_decide (a = 9)
  | None => false
  end.

#[global] Instance group_state : State group := {|
  batch_indices g := m_batch <$> g;
  score g := (λ m, Num (m_score m)) <$> g;
  action_history g := m_history <$> g;
  is_finished g := match g with
                   | [m] => Ok (finished m)
                   | _ => Raise RuntimeError
                   end;
  combine_states gs := concat gs;
|}.

(** A child of [m] by [action], at a cost. *)
Definition child (m : member) (ac : Z * Z) : group :=
  [{| m_batch := m_batch m;
      m_score := m_score m - ac.2;
      m_history := m_history m ++ [ac.1] |}].

Definition permitted (allowed_actions : option (list Z)) (ac : Z * Z) : bool :=
  match allowed_actions with
  | Some l => bool_decide (ac.1 ∈ l)
  | None => true
  end.

(** Every member offers the actions [menu], cheapest first; the policy
    keeps [max_actions] of them. *)
Definition offers (allowed_actions : option (list Z)) (max_actions : Z)
    (menu : list (Z * Z)) : list (Z * Z) :=
  take (Z.to_nat max_actions) (filter (λ ac, permitted allowed_actions ac = true) menu).

Definition policy (menu : member → list (Z * Z)) : TransitionFunction group :=
  {| take_step g max_actions allowed_actions :=
       Ok (m ← g; child m <$> offers allowed_actions max_actions (menu m)) |}.

(** The binary tree: actions [0] and [1], each at cost [1]. *)
Definition binary : TransitionFunction group := policy (λ _, [(0, 1); (1, 1)]).

(** Stop ([9]) is the better action once the history has length [2]. *)
Definition stopping : TransitionFunction group :=
  policy (λ m, if decide (length (m_history m) = 2%nat)
               then [(9, 0); (0, 1)] else [(0, 1); (9, 2)]).

(** Stop is the only action once the history has length [1]. *)
Definition halting : TransitionFunction group :=
  policy (λ m, if decide (length (m_history m) = 1%nat)
               then [(9, 0)] else [(0, 1); (9, 2)]).

Definition root (batch : list Z) : group :=
  (λ b, {| m_batch := b; m_score := 0; m_history := [] |}) <$> batch.

Definition engine (beam_size : Z) (keep_beam_details : bool) : BeamSearch :=
  {| _beam_size := beam_size; _per_node_beam_size := beam_size;
     _allowed_transitions := None;
     beams := if keep_beam_details then Some [] else None |}.

(** an engine constrained to the sequence [0; 1] *)
Definition forced : BeamSearch :=
  {| _beam_size := 2; _per_node_beam_size := 2;
     _allowed_transitions := Some (prefix_tree [] [0; 1]);
     beams := None |}.

(** the value of a computation that is known to succeed *)
Definition value {A} (d : A) (c : outcome A) : A :=
  match c with
  | Ok a => a
  | Raise _ => d
  end.

(** Runs on which the properties are exercised. *)
Definition binary_best : list (Z * list group) :=
  Eval vm_compute in value [] (search_call (engine 2 true) 3 (root [0]) binary true).1.
Definition binary_self : BeamSearch :=
  Eval vm_compute in (search_call (engine 2 true) 3 (root [0]) binary true).2.
Definition halting_best : list (Z * list group) :=
  Eval vm_compute in value [] (search_call (engine 2 true) 3 (root [0]) halting true).1.
Definition halting_self : BeamSearch :=
  Eval vm_compute in (search_call (engine 2 true) 3 (root [0]) halting true).2.
Definition stopping_best : list (Z * list group) :=
  Eval vm_compute in value [] (search_call (engine 2 true) 3 (root [1]) stopping true).1.
Definition stopping_self : BeamSearch :=
  Eval vm_compute in (search_call (engine 2 true) 3 (root [1]) stopping true).2.
Definition two_batches : (outcome (list group * ddict group) * store group) :=
  Eval vm_compute in
    search_steps (engine 2 true) 1 (root [0; 1]) stopping true (enter (engine 2 true)).
Definition first_step : (outcome (list group * ddict group) * store group) :=
  Eval vm_compute in
    search_step (engine 2 false) 3 binary true 1 [root [0; 1]] [] (enter (engine 2 false)).
End Tree.

(** ** The vocabulary of the run of a search *)

Section run_vocabulary.
Context {StateType : Type} `{StateOps : State StateType}.
Implicit Types (state : StateType) (self : BeamSearch)
  (candidates states : list StateType)
  (transition_function : TransitionFunction StateType).

(** lines 121-122 succeed on a candidate: it has a first batch index and
    [is_finished] returns on it *)
Definition checked state : Prop :=
  is_Some (batch_index0 state) ∧ ∃ f, is_finished state = Ok f.

(** lines 128-132: the active list that a step leaves, from the candidates
    of the step *)
Definition survivors self candidates : list StateType :=
  concat ((λ l, py_slice_to l (_beam_size self)) <$> by_batch (unfinished candidates)).

(** The completed steps of the loop from the active list [states]: each
    step is the call it makes and the candidates it is answered; the next
    step starts from the survivors of the step. *)
Inductive run self transition_function
    : list StateType → list (call StateType * list StateType) → list StateType → Prop :=
| run_stop states : run self transition_function states [] states
| run_step states allowed candidates steps states' :
    states ≠ [] →
    allowed_actions_for self (combine_states states) = Ok allowed →
    take_step transition_function (combine_states states) (_per_node_beam_size self) allowed
      = Ok candidates →
    Forall checked candidates →
    run self transition_function (survivors self candidates) steps states' →
    run self transition_function states
      (({| call_state := combine_states states;
           call_max_actions := _per_node_beam_size self;
           call_allowed_actions := allowed |}, candidates) :: steps)
      states'.

(** the candidates that enter the finished-states accumulator over
    consecutive steps, the first of them numbered [step_num] *)
Fixpoint retained_over (num_steps : Z) (keep : bool) (step_num : Z)
    (per_step : list (list StateType)) : list StateType :=
  match per_step with
  | [] => []
  | candidates :: rest =>
      retained (bool_decide (step_num = num_steps) && keep) candidates
        ++ retained_over num_steps keep (step_num + 1) rest
  end.
End run_vocabulary.

(** ** The vocabulary of the log *)

(** the number of pairs that a log holds *)
Definition pairs (log : beam_log) : nat := sum_list (length <$> log).

(** [log'] has the entries of [log], each possibly with more pairs at its
    end, and possibly more entries *)
Definition grows (log log' : beam_log) : Prop :=
  ∀ i entry, log !! i = Some entry →
             ∃ entry', log' !! i = Some entry' ∧ entry `prefix_of` entry'.

(** where the back-fill puts the pair of a state: at the depth of the
    history, and in some entry when the history is empty *)
Definition placed (log : beam_log) (pair : pyfloat * list Z) : Prop :=
  match pair.2 with
  | [] => ∃ entry, entry ∈ log ∧ pair ∈ entry
  | _ :: _ => ∃ entry, log !! (length pair.2 - 1)%nat = Some entry ∧ pair ∈ entry
  end.

(** ** Further runs on the trees *)

Module TreeRuns.
Import Tree.

(** a transition function that raises on every call *)
Definition broken : TransitionFunction group :=
  {| take_step _ _ _ := Raise RuntimeError |}.

(** the engine that [constrained_to] makes of [engine 2 false] and [0; 1] *)
Definition constrained : BeamSearch :=
  {| _beam_size := 2; _per_node_beam_size := 2;
     _allowed_transitions := Some (prefix_tree [] [0; 1] ∪ ∅);
     beams := Some [] |}.

(** [stopping] from two roots, three steps, finished states only *)
Definition stopping_steps : outcome (list group * ddict group) * store group :=
  Eval vm_compute in
    search_steps (engine 2 false) 3 (root [0; 1]) stopping false (enter (engine 2 false)).
Definition stopping_active : list group :=
  Eval vm_compute in (value ([], []) stopping_steps.1).1.
Definition stopping_accumulator : ddict group :=
  Eval vm_compute in (value ([], []) stopping_steps.1).2.
Definition stopping_store : store group :=
  Eval vm_compute in stopping_steps.2.
Definition stopping_finished_best : list (Z * list group) :=
  Eval vm_compute in
    value [] (search_call (engine 2 false) 3 (root [0; 1]) stopping false).1.
Definition stopping_finished_self : BeamSearch :=
  Eval vm_compute in (search_call (engine 2 false) 3 (root [0; 1]) stopping false).2.

(** [stopping] from two roots, three steps, with the log *)
Definition stopping_search : outcome (list (Z * list group)) * store group :=
  Eval vm_compute in
    search (engine 2 true) 3 (root [0; 1]) stopping true (enter (engine 2 true)).
Definition stopping_search_best : list (Z * list group) :=
  Eval vm_compute in value [] stopping_search.1.
Definition stopping_search_store : store group :=
  Eval vm_compute in stopping_search.2.

(** [halting] from one root: the loop stops after two steps *)
Definition halting_steps : outcome (list group * ddict group) * store group :=
  Eval vm_compute in
    search_steps (engine 2 true) 3 (root [0]) halting true (enter (engine 2 true)).
Definition halting_active : list group :=
  Eval vm_compute in (value ([], []) halting_steps.1).1.
Definition halting_accumulator : ddict group :=
  Eval vm_compute in (value ([], []) halting_steps.1).2.
Definition halting_store : store group :=
  Eval vm_compute in halting_steps.2.
Definition halting_log : beam_log :=
  Eval vm_compute in default [] (st_beams halting_store).
Definition halting_finished : outcome (ddict group) * store group :=
  Eval vm_compute in
    search_finished (engine 2 true) 3 (root [0]) halting true (enter (engine 2 true)).
Definition halting_filled : ddict group :=
  Eval vm_compute in value [] halting_finished.1.
Definition halting_final_store : store group :=
  Eval vm_compute in halting_finished.2.

(** [stopping] on a beam size of [0], two candidates per node *)
Definition narrow : BeamSearch :=
  {| _beam_size := 0; _per_node_beam_size := 2;
     _allowed_transitions := None; beams := None |}.
Definition zero_search : outcome (list (Z * list group)) * store group :=
  Eval vm_compute in search narrow 3 (root [0]) stopping true (enter narrow).
Definition zero_best : list (Z * list group) :=
  Eval vm_compute in value [] zero_search.1.
Definition zero_store : store group :=
  Eval vm_compute in zero_search.2.

(** [binary] from one root, three steps: the third call, its answer, and
    the first state of the first list returned *)
Definition binary_search : outcome (list (Z * list group)) * store group :=
  Eval vm_compute in
    search (engine 2 true) 3 (root [0]) binary true (enter (engine 2 true)).
Definition binary_search_best : list (Z * list group) :=
  Eval vm_compute in value [] binary_search.1.
Definition binary_search_store : store group :=
  Eval vm_compute in binary_search.2.
Definition binary_third_call : call group :=
  Eval vm_compute in
    default {| call_state := []; call_max_actions := 0; call_allowed_actions := None |}
            (st_calls binary_search_store !! 2%nat).
Definition binary_third_answer : list group :=
  Eval vm_compute in
    value [] (take_step binary (call_state binary_third_call)
                (call_max_actions binary_third_call)
                (call_allowed_actions binary_third_call)).
Definition binary_third_first : group :=
  Eval vm_compute in default [] (head binary_third_answer).
Definition binary_first_list : list group :=
  Eval vm_compute in default [] (snd <$> head binary_search_best).
Definition binary_first : group :=
  Eval vm_compute in default [] (head binary_first_list).
End TreeRuns.

(** ** Scores that are not numbers *)

Module Scored.
(** a state with the score it is given; every group of one is finished *)
Record member := {
  s_batch : Z;
  s_score : pyfloat;
  s_history : list Z;
}.

Definition group := list member.

#[global] Instance group_state : State group := {|
  batch_indices g := s_batch <$> g;
  score g := s_score <$> g;
  action_history g := s_history <$> g;
  is_finished g := match g with
                   | [_] => Ok true
                   | _ => Raise RuntimeError
                   end;
  combine_states gs := concat gs;
|}.

Definition start : group := [{| s_batch := 0; s_score := Num 0; s_history := [] |}].

Definition finished_with (s : pyfloat) (action : Z) : group :=
  [{| s_batch := 0; s_score := s; s_history := [action] |}].

(** The transition function answers four finished states, of scores [-3],
    [nan], [-1] and [-2]: the keys of the final sort are [3], [nan], [1]
    and [2], none of them [<] the one before it. *)
Definition four : TransitionFunction group :=
  {| take_step _ _ _ :=
       Ok [finished_with (Num (-3)) 0; finished_with NaN 1;
           finished_with (Num (-1)) 2; finished_with (Num (-2)) 3] |}.
End Scored.

(** * Properties *)

(** ** Outcomes, indexing and slicing *)

Lemma obind_Ok {A B} (c : outcome A) (k : A → outcome B) (b : B) :
  obind c k = Ok b → ∃ a, c = Ok a ∧ k a = Ok b.
Proof. destruct c as [a|e]; simpl; [eauto | discriminate]. Qed.

Ltac inv_obind H :=
  let a := fresh "a" in
  let Ha := fresh "Ha" in
  apply obind_Ok in H; destruct H as (a & Ha & H).

Lemma omap_Ok {A B} (f : A → outcome B) (l : list A) (l' : list B) :
  omap f l = Ok l' → Forall2 (λ x y, f x = Ok y) l l'.
Proof.
  revert l'. induction l as [|x l IH]; intros l' Hl; simpl in Hl.
  - injection Hl as <-. constructor.
  - inv_obind Hl. inv_obind Hl. injection Hl as <-. constructor; auto.
Qed.

Lemma omap_app {A B} (f : A → outcome B) (l1 l2 : list A) (r1 r2 : list B) :
  omap f l1 = Ok r1 → omap f l2 = Ok r2 → omap f (l1 ++ l2) = Ok (r1 ++ r2).
Proof.
  revert r1. induction l1 as [|x l1 IH]; intros r1 H1 H2; simpl in *.
  - injection H1 as <-. done.
  - inv_obind H1. inv_obind H1. injection H1 as <-.
    rewrite Ha. simpl. rewrite (IH _ Ha0 H2). done.
Qed.

Lemma py_index_0 {A} (l : list A) (x : A) : py_index l 0 = Ok x ↔ head l = Some x.
Proof.
  unfold py_index. destruct l as [|y l]; simpl.
  - split; discriminate.
  - replace (0 <? Z.pos (Pos.of_succ_nat (length l))) with true
      by (symmetry; apply Z.ltb_lt; lia).
    simpl. split; intros [= ->]; done.
Qed.

Lemma py_slice_to_take {A} (l : list A) (k : Z) : ∃ n, py_slice_to l k = take n l.
Proof. unfold py_slice_to. destruct (k <? 0); eauto. Qed.

Lemma py_slice_to_nonneg {A} (l : list A) (k : Z) :
  0 ≤ k → py_slice_to l k = take (Z.to_nat k) l.
Proof. intros Hk. unfold py_slice_to. destruct (Z.ltb_spec k 0); [lia | done]. Qed.

(** ** The final sort *)

Section sorting.
Context {A : Type}.
Implicit Types (x y : pyfloat * A) (l : list (pyfloat * A)).

Lemma float_lt_true (a b : pyfloat) :
  float_lt a b = true → ∃ m n, a = Num m ∧ b = Num n ∧ m < n.
Proof.
  destruct a as [m|], b as [n|]; simpl; try discriminate.
  intros Hlt. exists m, n. repeat split. lia.
Qed.

Lemma float_neg_involutive (a : pyfloat) : float_neg (float_neg a) = a.
Proof. destruct a as [m|]; simpl; [f_equal; lia | done]. Qed.

Lemma sort_insert_perm x l : sort_insert x l ≡ₚ x :: l.
Proof.
  induction l as [|y l IH]; simpl; [done |].
  destruct (float_lt y.1 x.1); [|done].
  rewrite IH. apply Permutation_swap.
Qed.

Lemma py_sort_perm l : py_sort l ≡ₚ l.
Proof.
  induction l as [|x l IH]; simpl; [done |].
  rewrite sort_insert_perm. by rewrite IH.
Qed.

(** On keys that are numbers the insertion keeps the list sorted. *)
Lemma sort_insert_sorted x l :
  number x.1 → Forall (λ y, number y.1) l →
  StronglySorted key_le l → StronglySorted key_le (sort_insert x l).
Proof.
  intros [a Hx] Hnum Hs. induction Hs as [|y l Hl IH Hy]; simpl.
  - repeat constructor.
  - apply Forall_cons in Hnum as [[b Hb] Hnum].
    destruct (float_lt y.1 x.1) eqn:Hlt.
    + constructor; [by apply IH |].
      rewrite sort_insert_perm. constructor; [|done].
      unfold key_le. rewrite Hb, Hx in *. simpl in *. lia.
    + constructor; [by constructor |].
      assert (Hxy : key_le x y).
      { unfold key_le. rewrite Hb, Hx in *. simpl in *. lia. }
      constructor; [done |].
      eapply Forall_impl; [exact Hy |]. unfold key_le in *. intros z Hz.
      destruct x.1, y.1, z.1; simpl in *; try done. lia.
Qed.

Lemma py_sort_sorted l :
  Forall (λ y, number y.1) l → StronglySorted key_le (py_sort l).
Proof.
  induction 1 as [|x l Hx Hl IH]; simpl; [constructor |].
  apply sort_insert_sorted; [done | by rewrite py_sort_perm | done].
Qed.

(** The insertion moves an element past elements of smaller keys only:
    elements with one key keep their relative order. *)
Lemma sort_insert_stable (v : pyfloat) x l :
  filter (λ y, y.1 = v) (sort_insert x l) = filter (λ y, y.1 = v) (x :: l).
Proof.
  induction l as [|y l IH]; simpl; [done |].
  destruct (float_lt y.1 x.1) eqn:Hlt; [|done].
  apply float_lt_true in Hlt as (b & a & Hb & Ha & Hlt).
  rewrite (filter_cons _ y (sort_insert x l)), IH, !filter_cons.
  repeat case_decide; try done. exfalso. congruence || (assert (b = a) by congruence; lia).
Qed.

Lemma py_sort_stable (v : pyfloat) l :
  filter (λ y, y.1 = v) (py_sort l) = filter (λ y, y.1 = v) l.
Proof.
  induction l as [|x l IH]; simpl; [done |].
  rewrite sort_insert_stable, !filter_cons, IH. done.
Qed.
End sorting.

(** ** The ranking of the finished states *)

Section ranking.
Context {StateType : Type} `{StateOps : State StateType}.
Implicit Types (state : StateType) (self : BeamSearch).

Lemma keyed_pairs (batch_states : list StateType) (pairs : list (pyfloat * StateType)) :
  omap (λ state, do s <- py_index (score state) 0; Ok (float_neg s, state)) batch_states
    = Ok pairs →
  pairs.*2 = batch_states ∧ Forall keyed pairs.
Proof.
  intros Hp. apply omap_Ok in Hp.
  induction Hp as [|s p l l' Hsp _ [IH1 IH2]]; [by split |].
  inv_obind Hsp. injection Hsp as <-. apply py_index_0 in Ha.
  split; [by rewrite fmap_cons, IH1 |].
  constructor; [|done]. unfold keyed, score0. simpl.
  by rewrite Ha, float_neg_involutive.
Qed.

(** The keys of states whose scores are numbers are numbers. *)
Lemma keyed_number (l : list (pyfloat * StateType)) :
  Forall keyed l → Forall scored (l.*2) → Forall (λ p, number p.1) l.
Proof.
  induction 1 as [|p l Hp _ IH]; [done |].
  rewrite fmap_cons. intros [[x Hx] Hl]%Forall_cons. constructor; [|by apply IH].
  unfold keyed in Hp. rewrite Hp in Hx. injection Hx as Hx.
  exists (- x). by rewrite <- (float_neg_involutive p.1), Hx.
Qed.

Lemma keyed_sorted (l : list (pyfloat * StateType)) :
  Forall keyed l → StronglySorted key_le l → StronglySorted score_ge (l.*2).
Proof.
  intros Hk Hs. induction Hs as [|p l Hs IH Hp]; simpl; [constructor |].
  apply Forall_cons in Hk as [Hkp Hk].
  constructor; [by apply IH |].
  apply Forall_fmap, Forall_forall. intros q Hq.
  rewrite Forall_forall in Hp, Hk. specialize (Hp q Hq). specialize (Hk q Hq).
  unfold keyed in *. unfold key_le in Hp. unfold score_ge, compose. rewrite Hkp, Hk.
  destruct p.1 as [x|], q.1 as [y|]; simpl in Hp; try done.
  exists (- x), (- y). repeat split. lia.
Qed.

Lemma keyed_filter (v : pyfloat) (l : list (pyfloat * StateType)) :
  Forall keyed l →
  filter (λ state, score0 state = Some v) (l.*2) = (filter (λ p, p.1 = float_neg v) l).*2.
Proof.
  induction 1 as [|p l Hp _ IH]; [done |].
  rewrite fmap_cons, !filter_cons, IH. unfold keyed in Hp.
  rewrite Hp. repeat case_decide; try done; exfalso.
  - simplify_eq. match goal with Hne : _ ≠ _ |- _ => apply Hne end.
    by rewrite float_neg_involutive.
  - match goal with Hne : Some _ ≠ Some _, Heq : _ = float_neg _ |- _ =>
      apply Hne; rewrite Heq end.
    by rewrite float_neg_involutive.
Qed.

Lemma StronglySorted_take {B} (R : B → B → Prop) (n : nat) (l : list B) :
  StronglySorted R l → StronglySorted R (take n l).
Proof.
  intros Hs. revert n. induction Hs as [|x l Hs IH Hx]; intros [|n]; simpl;
    try constructor; [apply IH |].
  eapply Forall_forall. intros y Hy. rewrite Forall_forall in Hx.
  apply Hx. by apply (subseteq_take n l).
Qed.

(** What [rank_batch] returns: a prefix of a permutation, which is the
    stable sort when the scores are numbers. *)
Lemma rank_batch_Ok self (batch_states best : list StateType) :
  rank_batch self batch_states = Ok best →
  (0 ≤ _beam_size self → (length best ≤ Z.to_nat (_beam_size self))%nat) ∧
  (Forall scored batch_states →
   StronglySorted score_ge best ∧
   ∀ v, filter (λ state, score0 state = Some v) best
          `prefix_of` filter (λ state, score0 state = Some v) batch_states).
Proof.
  unfold rank_batch. intros Hr. inv_obind Hr. injection Hr as <-.
  destruct (keyed_pairs _ _ Ha) as [Hsnd Hkeyed].
  assert (Hks : Forall keyed (py_sort a)) by by rewrite py_sort_perm.
  split; [|intros Hscored; split].
  - intros Hk. rewrite py_slice_to_nonneg, length_fmap, length_take by done. lia.
  - destruct (py_slice_to_take (py_sort a) (_beam_size self)) as [n ->].
    apply keyed_sorted.
    + by apply Forall_take.
    + apply StronglySorted_take, py_sort_sorted, keyed_number; [done |].
      by rewrite Hsnd.
  - intros v.
    destruct (py_slice_to_take (py_sort a) (_beam_size self)) as [n ->].
    rewrite keyed_filter by by apply Forall_take.
    rewrite <- Hsnd, keyed_filter by done.
    rewrite <- (py_sort_stable (float_neg v) a).
    rewrite <- (take_drop n (py_sort a)) at 2.
    rewrite filter_app, fmap_app. by eexists.
Qed.

Lemma rank_Ok self (finished_states : ddict StateType) best_states :
  rank self finished_states = Ok best_states →
  Forall2 (λ f b, b.1 = f.1 ∧ rank_batch self f.2 = Ok b.2) finished_states best_states.
Proof.
  intros Hr. apply omap_Ok in Hr.
  eapply Forall2_impl; [exact Hr |].
  intros [k l] b Hb. simpl in Hb. inv_obind Hb. by injection Hb as <-.
Qed.
End ranking.

(** ** Reasoning in the monad *)

Section monad.
Context {StateType : Type} `{StateOps : State StateType}.
Implicit Types (st : store StateType) (self : BeamSearch).

Lemma bind_Ok {A B} (c : M StateType A) (k : A → M StateType B) st (b : B) st' :
  bind c k st = (Ok b, st') → ∃ a st1, c st = (Ok a, st1) ∧ k a st1 = (Ok b, st').
Proof.
  unfold bind. destruct (c st) as [[a|e] st1]; [eauto | discriminate].
Qed.

Lemma lift_Ok {A} (c : outcome A) st (a : A) st' :
  lift c st = (Ok a, st') → c = Ok a ∧ st' = st.
Proof. unfold lift. by intros [= -> ->]. Qed.

Lemma search_Ok self num_steps initial_state transition_function keep st best_states st' :
  search self num_steps initial_state transition_function keep st = (Ok best_states, st') →
  ∃ finished_states,
    search_finished self num_steps initial_state transition_function keep st
      = (Ok finished_states, st') ∧
    rank self finished_states = Ok best_states.
Proof.
  unfold search. intros Hs. apply bind_Ok in Hs as (fin & st1 & Hfin & Hr).
  apply lift_Ok in Hr as [Hr ->]. eauto.
Qed.

Lemma search_call_Ok self num_steps initial_state transition_function keep best_states self' :
  search_call self num_steps initial_state transition_function keep = (Ok best_states, self') →
  ∃ st', search self num_steps initial_state transition_function keep (enter self)
           = (Ok best_states, st') ∧ self' = leave self st'.
Proof.
  unfold search_call.
  destruct (search _ _ _ _ _ _) as [r st'] eqn:Hs. simpl. intros [= -> <-]. eauto.
Qed.
End monad.

Ltac inv_bind H :=
  let a := fresh "a" in
  let st := fresh "st" in
  let Ha := fresh "Ha" in
  apply bind_Ok in H; destruct H as (a & st & Ha & H).

(** ** The returned mapping *)

Section returned.
Context {StateType : Type} `{StateOps : State StateType}.
Implicit Types (self : BeamSearch) (initial_state : StateType)
  (transition_function : TransitionFunction StateType).

(** C1.  Whenever [search] returns, on an engine whose beam size is not
    negative, every list of the returned mapping has at most [beam_size]
    states. *)
Theorem search_lists_within_beam_size
    self num_steps initial_state transition_function keep best_states self' :
  0 ≤ _beam_size self →
  search_call self num_steps initial_state transition_function keep = (Ok best_states, self') →
  Forall (λ b, Z.of_nat (length b.2) ≤ _beam_size self) best_states.
Proof.
  intros Hk Hs. apply search_call_Ok in Hs as (st' & Hs & _).
  apply search_Ok in Hs as (fin & _ & Hr). apply rank_Ok in Hr.
  induction Hr as [|f b fs bs [_ Hb] _ IH]; constructor; [|done].
  apply rank_batch_Ok in Hb as (Hlen & _). specialize (Hlen Hk). lia.
Qed.

(** C2, as the code has it.  Whenever [search] returns, the returned
    mapping has the batch indices of the finished-states accumulator, in its
    order.  For a batch index whose accumulated states all have a score that
    is a number, not NaN, the returned list is sorted by non-increasing
    score, and its states of any one score are the first states of that
    score of the accumulator's list, in the order in which they were
    appended. *)
Theorem search_lists_sorted_stable
    self num_steps initial_state transition_function keep best_states self' :
  search_call self num_steps initial_state transition_function keep = (Ok best_states, self') →
  ∃ finished_states,
    (search_finished self num_steps initial_state transition_function keep (enter self)).1
      = Ok finished_states ∧
    Forall2 (λ f b,
               b.1 = f.1 ∧
               (Forall scored f.2 →
                StronglySorted score_ge b.2 ∧
                ∀ v, filter (λ state, score0 state = Some v) b.2
                       `prefix_of` filter (λ state, score0 state = Some v) f.2))
            finished_states best_states.
Proof.
  intros Hs. apply search_call_Ok in Hs as (st' & Hs & _).
  apply search_Ok in Hs as (fin & Hfin & Hr). exists fin.
  split; [by rewrite Hfin |].
  apply rank_Ok in Hr. eapply Forall2_impl; [exact Hr |].
  intros f b [Hkey Hb]. apply rank_batch_Ok in Hb as (_ & Hsorted). auto.
Qed.
End returned.

(** ** Grouping by batch index *)

Section grouping.
Context {K : Type} `{EqDecision K}.
Implicit Types (k : K) (l : list K).

Lemma elem_of_first_seen k l : k ∈ first_seen l ↔ k ∈ l.
Proof.
  induction l as [|x l IH]; simpl; [done |].
  rewrite !elem_of_cons, list_elem_of_filter, IH.
  destruct (decide (k = x)); tauto.
Qed.

Lemma NoDup_first_seen l : NoDup (first_seen l).
Proof.
  induction l as [|x l IH]; simpl; constructor.
  - rewrite list_elem_of_filter. tauto.
  - by apply NoDup_filter.
Qed.

Lemma first_seen_snoc l k :
  first_seen (l ++ [k]) = if decide (k ∈ l) then first_seen l else first_seen l ++ [k].
Proof.
  induction l as [|x l IH]; simpl.
  - done.
  - rewrite IH. destruct (decide (k ∈ l)) as [Hl|Hl].
    + rewrite decide_True; [done | by apply elem_of_cons; right].
    + rewrite filter_app. destruct (decide (k = x)) as [->|Hne].
      * rewrite decide_True by (apply elem_of_cons; by left).
        rewrite filter_cons_False by tauto. by rewrite filter_nil, app_nil_r.
      * rewrite filter_cons_True by done. rewrite filter_nil.
        rewrite decide_False; [done |].
        rewrite elem_of_cons. tauto.
Qed.

Lemma first_seen_fmap {K'} `{EqDecision K'} (f : K → K') l :
  Inj (=) (=) f → first_seen (f <$> l) = f <$> first_seen l.
Proof.
  intros Hf. induction l as [|x l IH]; csimpl; [done |].
  rewrite IH. f_equal. generalize (first_seen l). intros ks.
  induction ks as [|y ks IHk]; [done |].
  rewrite fmap_cons, !filter_cons, IHk.
  destruct (decide (y = x)) as [->|Hne].
  - rewrite !decide_False by tauto. done.
  - rewrite !decide_True; [done | done | intros Hxy; by apply Hf in Hxy].
Qed.
End grouping.

Section dd_group.
Context {A : Type}.
Implicit Types (d : ddict A) (kvs : list (Z * A)) (k : Z) (v : A).

Lemma dd_append_fresh k v (g : Z → list A) (ks : list Z) :
  k ∉ ks →
  dd_append k v ((λ x, (x, g x)) <$> ks) = ((λ x, (x, g x)) <$> ks) ++ [(k, [v])].
Proof.
  induction ks as [|x ks IH]; intros Hk; csimpl; [done |].
  apply not_elem_of_cons in Hk as [Hne Hk].
  rewrite decide_False by done. by rewrite IH.
Qed.

Lemma dd_append_present k v (g g' : Z → list A) (ks : list Z) :
  k ∈ ks → NoDup ks →
  g' k = g k ++ [v] → (∀ x, x ≠ k → g' x = g x) →
  dd_append k v ((λ x, (x, g x)) <$> ks) = (λ x, (x, g' x)) <$> ks.
Proof.
  intros Hk Hnd Hgk Hg. induction ks as [|x ks IH]; csimpl.
  - by apply elem_of_nil in Hk.
  - apply NoDup_cons in Hnd as [Hx Hnd].
    destruct (decide (k = x)) as [->|Hne].
    + rewrite Hgk. f_equal. apply list_fmap_ext. intros i y Hy.
      rewrite Hg; [done |]. intros ->. apply Hx. by eapply list_elem_of_lookup_2.
    + rewrite Hg by done. f_equal. apply IH; [|done].
      apply elem_of_cons in Hk as [?|?]; done.
Qed.

Lemma filter_none (P : Z * A → Prop) `{∀ kv, Decision (P kv)} kvs :
  (∀ kv, kv ∈ kvs → ¬ P kv) → filter P kvs = [].
Proof.
  induction kvs as [|kv kvs IH]; intros Hn; [done |].
  rewrite filter_cons_False by (apply Hn; by left).
  apply IH. intros kv' Hkv'. apply Hn. by right.
Qed.

(** [dd_extend [] kvs] files the values under their keys: the keys in the
    order of their first occurrence, the values of a key in their order. *)
Lemma dd_extend_nil kvs :
  dd_extend [] kvs = (λ k, (k, values_of k kvs)) <$> first_seen (kvs.*1).
Proof.
  induction kvs as [|[k v] kvs IH] using rev_ind; [done |].
  unfold dd_extend in *. rewrite foldl_app. csimpl. rewrite IH.
  rewrite fmap_app. csimpl. rewrite first_seen_snoc.
  destruct (decide (k ∈ kvs.*1)) as [Hk|Hk].
  - apply dd_append_present.
    + by apply elem_of_first_seen.
    + apply NoDup_first_seen.
    + unfold values_of. rewrite filter_app, filter_cons, filter_nil.
      csimpl. rewrite decide_True by done. by rewrite fmap_app.
    + intros x Hx. unfold values_of. rewrite filter_app, filter_cons, filter_nil.
      csimpl. rewrite decide_False by done. by rewrite app_nil_r.
  - rewrite dd_append_fresh by by rewrite elem_of_first_seen.
    rewrite fmap_app. csimpl. f_equal.
    + apply list_fmap_ext. intros i x Hx. f_equal.
      unfold values_of. rewrite filter_app, filter_cons, filter_nil.
      csimpl. rewrite decide_False; [by rewrite app_nil_r |].
      intros ->. apply Hk. apply elem_of_first_seen. by eapply list_elem_of_lookup_2.
    + unfold values_of. rewrite filter_app, filter_cons, filter_nil.
      csimpl. rewrite decide_True by done. f_equal. f_equal.
      rewrite filter_none; [done |].
      intros kv Hkv ?. apply Hk. apply list_elem_of_fmap. by exists kv.
Qed.
End dd_group.

(** ** One step of the loop *)

Section step.
Context {StateType : Type} `{StateOps : State StateType}.
Implicit Types (state : StateType) (self : BeamSearch) (st : store StateType)
  (candidates states : list StateType) (finished_states next_states : ddict StateType).

Lemma filter_ext_Forall (P Q : StateType → Prop)
    `{∀ x, Decision (P x)} `{∀ x, Decision (Q x)} states :
  Forall (λ x, P x ↔ Q x) states → filter P states = filter Q states.
Proof.
  induction 1 as [|x l Hx _ IH]; [done |].
  rewrite !filter_cons, IH. repeat case_decide; tauto.
Qed.

Lemma values_of_tag k states :
  values_of k (tag <$> states) = filter (λ state, key state = k) states.
Proof.
  unfold values_of. induction states as [|x l IH]; [done |].
  rewrite fmap_cons, !filter_cons. simpl. case_decide; csimpl; by rewrite IH.
Qed.

Lemma by_batch_key states :
  Forall (λ state, is_Some (batch_index0 state)) states →
  by_batch states
  = (λ k, filter (λ state, key state = k) states) <$> first_seen (key <$> states).
Proof.
  intros Hall. unfold by_batch.
  assert (Hk : Forall (λ state, batch_index0 state = Some (key state)) states).
  { eapply Forall_impl; [exact Hall |]. intros x [b Hb]. unfold key. by rewrite Hb. }
  replace (batch_index0 <$> states) with (Some <$> (key <$> states)).
  - rewrite first_seen_fmap by apply _. rewrite <- list_fmap_compose.
    apply list_fmap_ext. intros _ k _. simpl.
    apply filter_ext_Forall. eapply Forall_impl; [exact Hk |].
    intros x Hx. simpl. rewrite Hx. split; [by intros [= ->] | by intros ->].
  - rewrite <- list_fmap_compose. apply Forall_fmap_ext.
    eapply Forall_impl; [exact Hk |]. by intros x ->.
Qed.

(** grouping from the empty dictionary is [by_batch] *)
Lemma dd_extend_by_batch states :
  Forall (λ state, is_Some (batch_index0 state)) states →
  (dd_extend [] (tag <$> states)).*2 = by_batch states.
Proof.
  intros Hall. rewrite dd_extend_nil, by_batch_key by done.
  rewrite <- !list_fmap_compose.
  apply list_fmap_ext. intros _ k _. simpl. apply values_of_tag.
Qed.

(** The [for] loop over the candidates. *)
Lemma file_candidates_Ok num_steps step_num keep candidates
    finished_states next_states finished_states' next_states' :
  ofoldl (file_candidate num_steps step_num keep) (finished_states, next_states) candidates
    = Ok (finished_states', next_states') →
  Forall (λ state, is_Some (batch_index0 state) ∧ ∃ f, is_finished state = Ok f) candidates ∧
  next_states' = dd_extend next_states (tag <$> unfinished candidates) ∧
  finished_states'
  = dd_extend finished_states
      (tag <$> retained (bool_decide (step_num = num_steps) && keep) candidates).
Proof.
  revert finished_states next_states.
  induction candidates as [|x l IH]; intros fin nx Hf; simpl in Hf.
  - injection Hf as <- <-. unfold retained. by destruct (_ && _).
  - inv_obind Hf. destruct a as [fin1 nx1].
    apply IH in Hf as (Hall & -> & ->). clear IH.
    unfold file_candidate in Ha. inv_obind Ha. inv_obind Ha.
    apply py_index_0 in Ha0. fold (batch_index0 x) in Ha0.
    assert (Hkey : key x = a) by (unfold key; by rewrite Ha0).
    split; [constructor; eauto |].
    unfold unfinished, retained. rewrite !filter_cons, Ha1.
    destruct a0; injection Ha as <- <-.
    + rewrite decide_False by done. rewrite decide_True by done.
      destruct (_ && _); csimpl; by rewrite Hkey.
    + rewrite decide_True by done. rewrite decide_False by done.
      destruct (_ && _); csimpl; by rewrite Hkey.
Qed.
End step.

Section step_effects.
Context {StateType : Type} `{StateOps : State StateType}.
Implicit Types (state : StateType) (self : BeamSearch) (st : store StateType)
  (candidates states : list StateType) (finished_states next_states : ddict StateType)
  (transition_function : TransitionFunction StateType).

Lemma record_beam_Ok states st u st' :
  record_beam states st = (Ok u, st') →
  st_calls st' = st_calls st ∧ logs st st' [states].
Proof.
  unfold record_beam, logs. destruct (st_beams st) as [log|] eqn:Hlog.
  - destruct (omap beam_pair states) as [entry|e] eqn:He; [|discriminate].
    intros ?; simplify_eq. simpl. split; [done |]. exists [entry]. by rewrite He.
  - intros ?; simplify_eq. by rewrite Hlog.
Qed.

Lemma logs_app st st1 st2 (g1 g2 : list (list StateType)) :
  logs st st1 g1 → logs st1 st2 g2 → logs st st2 (g1 ++ g2).
Proof.
  unfold logs. destruct (st_beams st) as [log|].
  - intros (e1 & He1 & ->) (e2 & He2 & ->). exists (e1 ++ e2).
    split; [by apply omap_app | by rewrite app_assoc].
  - by intros ->.
Qed.

Lemma logs_nil st : logs st st [].
Proof.
  unfold logs. destruct (st_beams st) as [log|]; [|done].
  exists []. by rewrite app_nil_r.
Qed.

Lemma prune_Ok self next_states states st states' st' :
  prune self next_states states st = (Ok states', st') →
  states' = states ++ concat ((λ l, py_slice_to l (_beam_size self)) <$> next_states.*2) ∧
  st_calls st' = st_calls st ∧
  logs st st' (next_states.*2).
Proof.
  revert states st. induction next_states as [|[b l] nx IH]; intros states st Hp.
  - injection Hp as <- <-. rewrite app_nil_r. auto using logs_nil.
  - simpl in Hp. inv_bind Hp. apply record_beam_Ok in Ha as [Hc Hl].
    apply IH in Hp as (-> & -> & Hl'). csimpl. rewrite <- app_assoc.
    split; [done |]. split; [done |].
    by apply (logs_app st st0 st' [l]).
Qed.

Lemma call_take_step_Ok transition_function state max_actions allowed st candidates st' :
  call_take_step transition_function state max_actions allowed st = (Ok candidates, st') →
  take_step transition_function state max_actions allowed = Ok candidates ∧
  st_beams st' = st_beams st ∧
  st_calls st' = st_calls st ++ [{| call_state := state; call_max_actions := max_actions;
                                   call_allowed_actions := allowed |}].
Proof. unfold call_take_step. by intros [= -> <-]. Qed.

(** A step that completes. *)
Lemma search_step_Ok self num_steps transition_function keep step_num
    states finished_states st states' finished_states' st' :
  search_step self num_steps transition_function keep step_num states finished_states st
    = (Ok (states', finished_states'), st') →
  ∃ allowed candidates,
    allowed_actions_for self (combine_states states) = Ok allowed ∧
    take_step transition_function (combine_states states) (_per_node_beam_size self) allowed
      = Ok candidates ∧
    st_calls st' = st_calls st ++ [{| call_state := combine_states states;
                                     call_max_actions := _per_node_beam_size self;
                                     call_allowed_actions := allowed |}] ∧
    states' = concat ((λ l, py_slice_to l (_beam_size self))
                        <$> by_batch (unfinished candidates)) ∧
    finished_states'
    = dd_extend finished_states
        (tag <$> retained (bool_decide (step_num = num_steps) && keep) candidates) ∧
    logs st st' (by_batch (unfinished candidates)).
Proof.
  unfold search_step. intros Hs.
  inv_bind Hs. apply lift_Ok in Ha as [Hallowed ->].
  inv_bind Hs. apply call_take_step_Ok in Ha as (Htake & Hb & Hc).
  inv_bind Hs. apply lift_Ok in Ha as [Hfile ->]. destruct a1 as [fin nx].
  inv_bind Hs. injection Hs as <- <- <-.
  apply file_candidates_Ok in Hfile as (Hall & -> & ->).
  apply prune_Ok in Ha as (-> & Hc' & Hl).
  assert (Hu : Forall (λ state, is_Some (batch_index0 state)) (unfinished a0)).
  { apply Forall_forall. intros x Hx. apply list_elem_of_filter in Hx as [_ Hx].
    rewrite Forall_forall in Hall. by destruct (Hall x Hx). }
  rewrite dd_extend_by_batch in Hl |- * by done.
  exists a, a0. repeat split; try done.
  - by rewrite Hc'.
  - unfold logs in *. by rewrite <- Hb.
Qed.
End step_effects.

Section step_calls.
Context {StateType : Type} `{StateOps : State StateType}.
Implicit Types (state : StateType) (self : BeamSearch) (st : store StateType)
  (states : list StateType) (finished_states next_states : ddict StateType)
  (transition_function : TransitionFunction StateType).

Lemma prune_calls self next_states states st :
  st_calls (prune self next_states states st).2 = st_calls st.
Proof.
  revert states st. induction next_states as [|[b l] nx IH]; intros states st; [done |].
  simpl. unfold bind, record_beam.
  destruct (st_beams st); [destruct (omap beam_pair l) |]; simpl; by rewrite ?IH.
Qed.

Lemma omap_total {A B} (f : A → outcome B) (l : list A) :
  Forall (λ x, ∃ y, f x = Ok y) l → ∃ ys, omap f l = Ok ys.
Proof.
  induction 1 as [|x l [y Hy] _ [ys IH]]; simpl; [by eexists |].
  rewrite Hy. simpl. rewrite IH. simpl. by eexists.
Qed.

(** The [for] loop over the candidates completes when lines 121-122 succeed
    on each of them. *)
Lemma file_candidates_total num_steps step_num keep candidates
    finished_states next_states :
  Forall (λ state, is_Some (batch_index0 state) ∧ ∃ f, is_finished state = Ok f) candidates →
  ∃ filed,
    ofoldl (file_candidate num_steps step_num keep) (finished_states, next_states) candidates
    = Ok filed.
Proof.
  intros Hall. revert finished_states next_states.
  induction Hall as [|x l [[b Hb] [f Hf]] _ IH]; intros fin nx; simpl; [by eexists |].
  unfold file_candidate at 1. apply py_index_0 in Hb. rewrite Hb. simpl. rewrite Hf. simpl.
  destruct f; simpl; apply IH.
Qed.

(** Pruning completes when the log is not kept, and when every state that
    goes into the log has a first score and a first history. *)
Lemma prune_total self next_states states st :
  (is_Some (st_beams st) →
   Forall (Forall (λ state, ∃ pair, beam_pair state = Ok pair)) (next_states.*2)) →
  ∃ states' st', prune self next_states states st = (Ok states', st').
Proof.
  revert states st. induction next_states as [|[b l] nx IH]; intros states st Hlog.
  - by eexists _, _.
  - simpl. unfold bind, record_beam. destruct (st_beams st) as [log|] eqn:Hst.
    + specialize (Hlog ltac:(by eexists)). rewrite fmap_cons in Hlog.
      apply Forall_cons in Hlog as [Hl Hnx].
      simpl in Hl. destruct (omap_total _ _ Hl) as [entry ->]. apply IH. by intros _.
    + apply IH. rewrite Hst. by intros [? ?].
Qed.

Lemma Forall_by_batch (P : StateType → Prop) (states : list StateType) :
  Forall P states → Forall (Forall P) (by_batch states).
Proof.
  intros Hall. unfold by_batch. apply Forall_fmap, Forall_forall. intros b _.
  apply Forall_forall. intros state [_ Hin]%list_elem_of_filter.
  rewrite Forall_forall in Hall. by apply Hall.
Qed.

Lemma search_step_invokes self num_steps transition_function keep step_num
    states finished_states st allowed :
  allowed_actions_for self (combine_states states) = Ok allowed →
  invokes self num_steps transition_function keep step_num states finished_states st allowed.
Proof.
  intros Ha. split; [done |]. split; [|split; [|split]].
  - unfold search_step, bind, lift, call_take_step. rewrite Ha.
    destruct (take_step _ _ _ _) as [candidates|e]; [|done].
    destruct (ofoldl _ _ _) as [[fin nx]|e]; [|done].
    pose proof (prune_calls self nx [] {|
      st_beams := st_beams st;
      st_calls := st_calls st ++ [{| call_state := combine_states states;
                                     call_max_actions := _per_node_beam_size self;
                                     call_allowed_actions := allowed |}] |}) as Hp.
    destruct (prune _ _ _ _) as [[states'|e] st']; done.
  - intros e He. unfold search_step, bind, lift, call_take_step. rewrite Ha. simpl.
    by rewrite He.
  - intros states' fin' st' Hs.
    apply search_step_Ok in Hs as (allowed' & candidates & Ha' & Htake & _ & -> & -> & _).
    rewrite Ha in Ha'. injection Ha' as <-. by exists candidates.
  - intros candidates Htake Hall Hlog.
    assert (∃ r st', search_step self num_steps transition_function keep step_num
                       states finished_states st = (Ok r, st')) as ([states' fin'] & st' & Hs).
    { unfold search_step, bind, lift, call_take_step. rewrite Ha. simpl. rewrite Htake.
      destruct (ofoldl _ _ _) as [[fin nx]|e] eqn:Hfile.
      2: { destruct (file_candidates_total num_steps step_num keep candidates
                       finished_states [] Hall) as [filed Hf].
           exfalso. unfold ddict in *. congruence. }
      apply file_candidates_Ok in Hfile as (_ & -> & _).
      match goal with |- context [prune ?s ?n ?l ?t] =>
        destruct (prune_total s n l t) as (r & st' & ->) end; [|by eexists _, _].
      simpl. intros Hsome. rewrite dd_extend_by_batch.
      - by apply Forall_by_batch, Hlog.
      - apply Forall_forall. intros x [_ Hx]%list_elem_of_filter.
        rewrite Forall_forall in Hall. by destruct (Hall x Hx). }
    exists st'. rewrite Hs.
    apply search_step_Ok in Hs as (allowed' & candidates' & Ha' & Htake' & _ & -> & -> & _).
    rewrite Ha in Ha'. injection Ha' as <-.
    rewrite Htake in Htake'. by injection Htake' as <-.
Qed.

(** C3.  Let the combined state of a step have a first member, with
    action history [history].  If the engine has a constraint map and
    [history] is one of its keys, the transition function is invoked with
    the restriction that holds just the action stored for [history]; if the
    engine has no constraint map, or [history] is not a key of it, the
    transition function is invoked with no restriction.  In each case the
    restriction is computed without an error, and the step is the one that
    [take_step] on the combined state, [per_node_beam_size] and this
    restriction decides: it raises what [take_step] raises, and it files and
    prunes the candidates that [take_step] answers. *)
Theorem search_step_allowed_actions
    self num_steps transition_function keep step_num states finished_states st history rest :
  action_history (combine_states states) = history :: rest →
  (∀ allowed_transitions action,
      _allowed_transitions self = Some allowed_transitions →
      allowed_transitions !! history = Some action →
      invokes self num_steps transition_function keep step_num states finished_states st
        (Some [action])) ∧
  (_allowed_transitions self = None →
      invokes self num_steps transition_function keep step_num states finished_states st
        None) ∧
  (∀ allowed_transitions,
      _allowed_transitions self = Some allowed_transitions →
      allowed_transitions !! history = None →
      invokes self num_steps transition_function keep step_num states finished_states st
        None).
Proof.
  intros Hh.
  assert (Hkey : py_index (action_history (combine_states states)) 0 = Ok history)
    by (apply py_index_0; by rewrite Hh).
  split; [|split].
  - intros m action Hm Hl. apply search_step_invokes.
    unfold allowed_actions_for. rewrite Hm.
    rewrite decide_False by (intros ->; by rewrite lookup_empty in Hl).
    rewrite Hkey. simpl. by rewrite Hl.
  - intros Hm. apply search_step_invokes. unfold allowed_actions_for. by rewrite Hm.
  - intros m Hm Hl. apply search_step_invokes.
    unfold allowed_actions_for. rewrite Hm.
    case_decide; [done |]. rewrite Hkey. simpl. by rewrite Hl.
Qed.

(** C8.  A step that completes, on an engine whose beam size is not
    negative, has made exactly one call to the transition function, with
    [max_actions = per_node_beam_size]; the new active list is, batch index
    after batch index in the order of their first unfinished candidate, the
    first [beam_size] unfinished candidates of the batch index, in the
    order in which the transition function returned them. *)
Theorem search_step_one_call_first_beam_size
    self num_steps transition_function keep step_num
    states finished_states st states' finished_states' st' :
  0 ≤ _beam_size self →
  search_step self num_steps transition_function keep step_num states finished_states st
    = (Ok (states', finished_states'), st') →
  ∃ allowed candidates,
    st_calls st' = st_calls st ++ [{| call_state := combine_states states;
                                     call_max_actions := _per_node_beam_size self;
                                     call_allowed_actions := allowed |}] ∧
    take_step transition_function (combine_states states) (_per_node_beam_size self) allowed
      = Ok candidates ∧
    states' = concat (take (Z.to_nat (_beam_size self)) <$> by_batch (unfinished candidates)).
Proof.
  intros Hk Hs.
  apply search_step_Ok in Hs as (allowed & candidates & _ & Htake & Hc & -> & _).
  exists allowed, candidates. repeat split; [done | done |].
  f_equal. apply list_fmap_ext. intros _ l _. by apply py_slice_to_nonneg.
Qed.
End step_calls.

(** ** The loop *)

Section loop.
Context {StateType : Type} `{StateOps : State StateType}.
Implicit Types (state : StateType) (self : BeamSearch) (st : store StateType)
  (states : list StateType) (finished_states : ddict StateType)
  (transition_function : TransitionFunction StateType).

(** The recursion on [remaining] is the [while] loop: with
    [remaining = num_steps - step_num + 1] it satisfies the equation of
    [while states and step_num <= num_steps]. *)
Lemma search_loop_while self num_steps transition_function keep step_num
    states finished_states st :
  search_loop self num_steps transition_function keep
    (Z.to_nat (num_steps - step_num + 1)) step_num states finished_states st
  = if bool_decide (states ≠ []) && bool_decide (step_num ≤ num_steps)
    then bind (search_step self num_steps transition_function keep step_num
                 states finished_states)
              (λ r, search_loop self num_steps transition_function keep
                      (Z.to_nat (num_steps - (step_num + 1) + 1)) (step_num + 1) r.1 r.2) st
    else (Ok (states, finished_states), st).
Proof.
  destruct (decide (step_num ≤ num_steps)) as [Hle|Hgt].
  - rewrite (bool_decide_eq_true_2 _ Hle), andb_true_r.
    replace (Z.to_nat (num_steps - step_num + 1))
      with (S (Z.to_nat (num_steps - (step_num + 1) + 1))) by lia.
    by destruct states.
  - rewrite (bool_decide_eq_false_2 _ Hgt), andb_false_r.
    replace (Z.to_nat (num_steps - step_num + 1)) with 0%nat by lia. done.
Qed.

Lemma search_loop_Ok self num_steps transition_function keep remaining step_num
    states finished_states st r st' :
  search_loop self num_steps transition_function keep remaining step_num
    states finished_states st = (Ok r, st') →
  ∃ calls per_step,
    st_calls st' = st_calls st ++ calls ∧
    Forall2 (answers transition_function) calls per_step ∧
    Forall (λ c, call_max_actions c = _per_node_beam_size self) calls ∧
    logs st st' (concat ((λ candidates, by_batch (unfinished candidates)) <$> per_step)).
Proof.
  revert step_num states finished_states st.
  induction remaining as [|n IH]; intros step_num states fin st Hl.
  - injection Hl as <- <-. exists [], []. rewrite app_nil_r.
    repeat split; auto using logs_nil.
  - destruct states as [|s states].
    { injection Hl as <- <-. exists [], []. rewrite app_nil_r.
      repeat split; auto using logs_nil. }
    simpl in Hl. inv_bind Hl. destruct a as [states1 fin1].
    apply search_step_Ok in Ha as (allowed & candidates & _ & Htake & Hc & _ & _ & Hlog).
    apply IH in Hl as (calls & per_step & Hc' & Hans & Hmax & Hlog').
    eexists (_ :: calls), (candidates :: per_step).
    split; [by rewrite Hc', Hc, <- app_assoc |].
    split; [constructor; [exact Htake | done] |].
    split; [by constructor |].
    csimpl. by eapply logs_app.
Qed.

(** C5, as the code has it.  When the log is kept, the log after the loop
    holds, step after step, one entry for each batch index that has an
    unfinished candidate at the step (the batch indices in the order of
    their first unfinished candidate): the [(score, action_history)] pairs
    of all the unfinished candidates of that batch index, in the order of
    the transition function.  There is one completed step for each call to
    the transition function. *)
Theorem search_steps_log
    self num_steps initial_state transition_function keep r st' :
  is_Some (beams self) →
  search_steps self num_steps initial_state transition_function keep (enter self)
    = (Ok r, st') →
  ∃ per_step entries,
    Forall2 (answers transition_function) (st_calls st') per_step ∧
    omap (omap beam_pair)
      (concat ((λ candidates, by_batch (unfinished candidates)) <$> per_step)) = Ok entries ∧
    st_beams st' = Some entries.
Proof.
  intros [log Hlog] Hs. unfold search_steps in Hs. inv_bind Hs.
  unfold clear_beams in Ha. injection Ha as <- <-.
  apply search_loop_Ok in Hs as (calls & per_step & Hc & Hans & _ & Hl).
  unfold logs in Hl. simpl in *. rewrite Hlog in Hl. simpl in Hl.
  destruct Hl as (entries & He & Hb).
  exists per_step, entries. by rewrite Hc.
Qed.
End loop.

(** ** The flag [keep_final_unfinished_states] *)

Section flag.
Context {StateType : Type} `{StateOps : State StateType}.
Implicit Types (state : StateType) (self : BeamSearch) (st : store StateType)
  (states : list StateType) (finished_states : ddict StateType)
  (transition_function : TransitionFunction StateType).

Lemma ofoldl_ext {A B} (f g : B → A → outcome B) (b : B) (l : list A) :
  (∀ b x, f b x = g b x) → ofoldl f b l = ofoldl g b l.
Proof.
  intros Hfg. revert b. induction l as [|x l IH]; intros b; simpl; [done |].
  rewrite Hfg. destruct (g b x); simpl; auto.
Qed.

Lemma bind_ext {A B} (c : M StateType A) (k k' : A → M StateType B) st :
  (∀ a st1, k a st1 = k' a st1) → bind c k st = bind c k' st.
Proof. intros Hk. unfold bind. destruct (c st) as [[a|e] st1]; auto. Qed.

Lemma bind_assoc {A B C}
    (c : M StateType A) (k : A → M StateType B) (k' : B → M StateType C) st :
  bind (bind c k) k' st = bind c (λ a, bind (k a) k') st.
Proof. unfold bind. destruct (c st) as [[a|e] st1]; auto. Qed.

(** A step reads the flag only through [step_num == num_steps and flag]. *)
Lemma search_step_flag self num_steps num_steps' transition_function keep keep'
    step_num states finished_states st :
  bool_decide (step_num = num_steps) && keep
    = bool_decide (step_num = num_steps') && keep' →
  search_step self num_steps transition_function keep step_num states finished_states st
  = search_step self num_steps' transition_function keep' step_num states finished_states st.
Proof.
  intros Hflag. unfold search_step.
  apply bind_ext. intros allowed st1. apply bind_ext. intros candidates st2.
  rewrite (ofoldl_ext (file_candidate num_steps step_num keep)
             (file_candidate num_steps' step_num keep')); [done |].
  intros [fin nx] x. unfold file_candidate. by rewrite Hflag.
Qed.

Lemma search_loop_flag self num_steps num_steps' transition_function keep keep'
    remaining step_num states finished_states st :
  (∀ s, step_num ≤ s < step_num + Z.of_nat remaining →
        bool_decide (s = num_steps) && keep = bool_decide (s = num_steps') && keep') →
  search_loop self num_steps transition_function keep remaining step_num
    states finished_states st
  = search_loop self num_steps' transition_function keep' remaining step_num
      states finished_states st.
Proof.
  revert step_num states finished_states st.
  induction remaining as [|n IH]; intros step_num states fin st Hflag; [done |].
  destruct states as [|s states]; [done |]. simpl.
  unfold bind. rewrite (search_step_flag self num_steps num_steps' _ keep keep')
    by (apply Hflag; lia).
  destruct (search_step _ _ _ _ _ _ _ _) as [[r|e] st1]; [|done].
  apply IH. intros s' Hs'. apply Hflag. lia.
Qed.

Lemma search_loop_nil self num_steps transition_function keep remaining step_num
    finished_states st :
  search_loop self num_steps transition_function keep remaining step_num
    [] finished_states st = (Ok ([], finished_states), st).
Proof. by destruct remaining. Qed.

(** [n + m] turns of the loop are [n] turns followed by [m] turns. *)
Lemma search_loop_app self num_steps transition_function keep (n m : nat) step_num
    states finished_states st :
  search_loop self num_steps transition_function keep (n + m) step_num
    states finished_states st
  = bind (search_loop self num_steps transition_function keep n step_num
            states finished_states)
         (λ r, search_loop self num_steps transition_function keep m
                 (step_num + Z.of_nat n) r.1 r.2) st.
Proof.
  revert step_num states finished_states st.
  induction n as [|n IH]; intros step_num states fin st.
  - unfold bind. simpl. by rewrite Z.add_0_r.
  - destruct states as [|s states].
    { unfold bind. simpl. by rewrite search_loop_nil. }
    cbn [search_loop Nat.add]. rewrite bind_assoc. apply bind_ext. intros r st1.
    rewrite IH. apply bind_ext. intros r' st2. f_equal. lia.
Qed.

(** C6.  If a search of [num_steps - 1] steps leaves no active state
    behind, then [search] with [keep_final_unfinished_states=True] and with
    [keep_final_unfinished_states=False] return the same mapping (or raise
    the same exception), and leave the same log. *)
Theorem search_keep_final_irrelevant self num_steps initial_state transition_function :
  (∀ active, active_after self (num_steps - 1) initial_state transition_function active →
             active = []) →
  search_call self num_steps initial_state transition_function true
  = search_call self num_steps initial_state transition_function false.
Proof.
  intros Hdone.
  assert (Hsteps :
    search_steps self num_steps initial_state transition_function true (enter self)
    = search_steps self num_steps initial_state transition_function false (enter self)).
  { destruct (Z.le_gt_cases num_steps 0) as [Hle|Hgt].
    - unfold search_steps. apply bind_ext. intros _ st1.
      replace (Z.to_nat num_steps) with 0%nat by lia. done.
    - unfold active_after, search_steps in *.
      replace (Z.to_nat num_steps) with (Z.to_nat (num_steps - 1) + 1)%nat by lia.
      unfold bind in *. simpl in *. rewrite !search_loop_app. unfold bind.
      rewrite (search_loop_flag self num_steps (num_steps - 1) _ true false),
              (search_loop_flag self num_steps (num_steps - 1) _ false false).
      + destruct (search_loop self (num_steps - 1) _ false _ _ _ _ _)
          as [[[active fin]|e] st1] eqn:Hrun; [|done].
        assert (active = []) as -> by eauto. cbn [fst snd]. by rewrite !search_loop_nil.
      + intros s Hs. rewrite !andb_false_r. done.
      + intros s Hs. rewrite andb_false_r, andb_true_r.
        apply bool_decide_eq_false. lia. }
  unfold search_call, search, search_finished.
  unfold bind at 1 3. unfold bind at 1 2. by rewrite Hsteps.
Qed.
End flag.

(** ** What [search] reads of [self] *)

Create HintDb keeps discriminated.

Section config.
Context {StateType : Type} `{StateOps : State StateType}.
Implicit Types (state : StateType) (self : BeamSearch) (st : store StateType)
  (states : list StateType) (finished_states next_states : ddict StateType)
  (transition_function : TransitionFunction StateType).

Lemma prune_config self self' next_states states st :
  same_config self self' →
  prune self next_states states st = prune self' next_states states st.
Proof.
  intros (Hb & _ & _). revert states st.
  induction next_states as [|[b l] nx IH]; intros states st; [done |].
  simpl. rewrite Hb. apply bind_ext. intros _ st1. apply IH.
Qed.

Lemma search_step_config self self' num_steps transition_function keep step_num
    states finished_states st :
  same_config self self' →
  search_step self num_steps transition_function keep step_num states finished_states st
  = search_step self' num_steps transition_function keep step_num states finished_states st.
Proof.
  intros Hc. pose proof Hc as (Hb & Hp & Ha). unfold search_step.
  unfold allowed_actions_for. rewrite Ha, Hp.
  apply bind_ext. intros allowed st1. apply bind_ext. intros candidates st2.
  apply bind_ext. intros [fin nx] st3. unfold bind.
  by rewrite (prune_config self self').
Qed.

Lemma search_loop_config self self' num_steps transition_function keep remaining step_num
    states finished_states st :
  same_config self self' →
  search_loop self num_steps transition_function keep remaining step_num
    states finished_states st
  = search_loop self' num_steps transition_function keep remaining step_num
      states finished_states st.
Proof.
  intros Hc. revert step_num states finished_states st.
  induction remaining as [|n IH]; intros step_num states fin st; [done |].
  destruct states as [|s states]; [done |]. simpl. unfold bind.
  rewrite (search_step_config self self') by done.
  destruct (search_step _ _ _ _ _ _ _ _) as [[r|e] st1]; [apply IH | done].
Qed.

Lemma rank_config self self' finished_states :
  same_config self self' → rank self finished_states = rank self' finished_states.
Proof. intros (Hb & _ & _). unfold rank, rank_batch. by rewrite Hb. Qed.

Lemma search_config self self' num_steps initial_state transition_function keep st :
  same_config self self' →
  search self num_steps initial_state transition_function keep st
  = search self' num_steps initial_state transition_function keep st.
Proof.
  intros Hc. unfold search, search_finished, search_steps.
  rewrite (bind_ext _ _ (λ fin, lift (rank self' fin)))
    by (intros fin st1; unfold lift; by rewrite (rank_config self self')).
  unfold bind. destruct (clear_beams st) as [[[]|e] st1]; [|done].
  by rewrite (search_loop_config self self').
Qed.

Lemma keeps_ret {A} (a : A) : keeps_log (ret a : M StateType A).
Proof. done. Qed.

Lemma keeps_lift {A} (c : outcome A) : keeps_log (lift c : M StateType A).
Proof. done. Qed.

Lemma keeps_bind {A B} (c : M StateType A) (k : A → M StateType B) :
  keeps_log c → (∀ a, keeps_log (k a)) → keeps_log (bind c k).
Proof.
  intros Hc Hk st. unfold bind. specialize (Hc st).
  destruct (c st) as [[a|e] st1]; simpl in *; [|done].
  specialize (Hk a st1). tauto.
Qed.

Lemma keeps_clear_beams : keeps_log (clear_beams : M StateType ()).
Proof. intros st. simpl. by rewrite fmap_is_Some. Qed.

Lemma keeps_call_take_step transition_function state max_actions allowed :
  keeps_log (call_take_step transition_function state max_actions allowed).
Proof. done. Qed.

Lemma keeps_record_beam states : keeps_log (record_beam states).
Proof.
  intros st. unfold record_beam. destruct (st_beams st) as [log|] eqn:Hlog.
  - destruct (omap beam_pair states); simpl; rewrite ?Hlog; split; eauto.
  - simpl. by rewrite Hlog.
Qed.

Hint Resolve keeps_ret keeps_lift keeps_bind keeps_clear_beams
  keeps_call_take_step keeps_record_beam : keeps.

Lemma keeps_prune self next_states states : keeps_log (prune self next_states states).
Proof.
  revert states. induction next_states as [|[b l] nx IH]; intros states; simpl;
    auto with keeps.
Qed.

Lemma keeps_search_step self num_steps transition_function keep step_num
    states finished_states :
  keeps_log (search_step self num_steps transition_function keep step_num
               states finished_states).
Proof.
  unfold search_step. apply keeps_bind; [auto with keeps |]. intros allowed.
  apply keeps_bind; [auto with keeps |]. intros candidates.
  apply keeps_bind; [auto with keeps |]. intros [fin nx].
  apply keeps_bind; [apply keeps_prune | auto with keeps].
Qed.

Lemma keeps_search_loop self num_steps transition_function keep remaining step_num
    states finished_states :
  keeps_log (search_loop self num_steps transition_function keep remaining step_num
               states finished_states).
Proof.
  revert step_num states finished_states.
  induction remaining as [|n IH]; intros step_num states fin; [done |].
  destruct states as [|s states]; [done |]. simpl.
  apply keeps_bind; [apply keeps_search_step | auto].
Qed.

Lemma keeps_backfill finished_states : keeps_log (backfill finished_states).
Proof.
  intros st. unfold backfill. destruct (st_beams st) as [log|] eqn:Hlog.
  - simpl. split; eauto.
  - simpl. by rewrite Hlog.
Qed.

Lemma keeps_search self num_steps initial_state transition_function keep :
  keeps_log (search self num_steps initial_state transition_function keep).
Proof.
  unfold search, search_finished, search_steps.
  repeat (apply keeps_bind; [|intros ?]);
    auto using keeps_search_loop, keeps_backfill with keeps.
Qed.

(** [search] reads the configuration of [self] and whether it holds a log,
    not what the log holds. *)
Lemma search_call_log_irrelevant self self' num_steps initial_state transition_function keep :
  same_config self self' →
  (is_Some (beams self) ↔ is_Some (beams self')) →
  search_call self num_steps initial_state transition_function keep
  = search_call self' num_steps initial_state transition_function keep.
Proof.
  intros Hc Hlog. unfold search_call.
  rewrite (search_config self self') by done.
  assert (Hclear : clear_beams (enter self : store StateType) = clear_beams (enter self')).
  { unfold clear_beams, enter. simpl.
    destruct (beams self), (beams self'); try done;
      destruct Hlog as [H1 H2]; [destruct H1 | destruct H2]; eauto; done. }
  assert (Hsearch :
    search self' num_steps initial_state transition_function keep (enter self)
    = search self' num_steps initial_state transition_function keep (enter self')).
  { unfold search, search_finished, search_steps. rewrite !bind_assoc.
    unfold bind at 1 5. by rewrite Hclear. }
  rewrite Hsearch. destruct Hc as (Hb & Hp & Ha). unfold leave. by rewrite Hb, Hp, Ha.
Qed.

(** C7.  A second call of [search], on the engine as the first call left
    it and with the same arguments, returns the same mapping (or raises the
    same exception) and leaves the same log; so does a call on that engine
    with any other content in its log. *)
Theorem search_twice self num_steps initial_state transition_function keep r self1 :
  search_call self num_steps initial_state transition_function keep = (r, self1) →
  search_call self1 num_steps initial_state transition_function keep = (r, self1) ∧
  ∀ log, search_call (with_log self1 log) num_steps initial_state transition_function keep
         = (r, self1).
Proof.
  intros Hs.
  assert (Hc : same_config self self1 ∧ (is_Some (beams self) ↔ is_Some (beams self1))).
  { unfold search_call in Hs. injection Hs as _ <-. split; [done |].
    simpl. symmetry. apply (keeps_search self _ _ _ _ (enter self)). }
  destruct Hc as [Hc Hlog]. split.
  - rewrite <- Hs. symmetry. by apply search_call_log_irrelevant.
  - intros log. rewrite <- Hs. symmetry. apply search_call_log_irrelevant.
    + done.
    + rewrite Hlog. unfold with_log. simpl. by rewrite fmap_is_Some.
Qed.
End config.

(** ** The search without the log *)

Section erasure.
Context {StateType : Type} `{StateOps : State StateType}.
Implicit Types (state : StateType) (self : BeamSearch) (st : store StateType)
  (states : list StateType) (finished_states next_states : ddict StateType)
  (transition_function : TransitionFunction StateType).

Lemma erasable_ret {A} (a : A) : erasable (ret a : M StateType A).
Proof. intros st a' st' [= <- <-]. done. Qed.

Lemma erasable_lift {A} (c : outcome A) : erasable (lift c : M StateType A).
Proof. intros st a' st' [= -> <-]. done. Qed.

Lemma erasable_bind {A B} (c : M StateType A) (k : A → M StateType B) :
  erasable c → (∀ a, erasable (k a)) → erasable (bind c k).
Proof.
  intros Hc Hk st b st' Hb. inv_bind Hb.
  unfold bind. rewrite (Hc _ _ _ Ha). by apply Hk.
Qed.

Lemma erasable_clear_beams : erasable (clear_beams : M StateType ()).
Proof. intros st a st' [= <- <-]. done. Qed.

Lemma erasable_call_take_step transition_function state max_actions allowed :
  erasable (call_take_step transition_function state max_actions allowed).
Proof. intros st a st'. unfold call_take_step. intros [= -> <-]. done. Qed.

Lemma erasable_record_beam states : erasable (record_beam states).
Proof.
  intros st a st'. unfold record_beam.
  destruct (st_beams st); [destruct (omap beam_pair states) |];
    intros ?; by simplify_eq.
Qed.

Hint Resolve erasable_ret erasable_lift erasable_bind erasable_clear_beams
  erasable_call_take_step erasable_record_beam : keeps.

Lemma erasable_prune self next_states states : erasable (prune self next_states states).
Proof.
  revert states. induction next_states as [|[b l] nx IH]; intros states; simpl;
    auto with keeps.
Qed.

Lemma erasable_search_step self num_steps transition_function keep step_num
    states finished_states :
  erasable (search_step self num_steps transition_function keep step_num
              states finished_states).
Proof.
  unfold search_step. apply erasable_bind; [auto with keeps |]. intros allowed.
  apply erasable_bind; [auto with keeps |]. intros candidates.
  apply erasable_bind; [auto with keeps |]. intros [fin nx].
  apply erasable_bind; [apply erasable_prune | auto with keeps].
Qed.

Lemma erasable_search_loop self num_steps transition_function keep remaining step_num
    states finished_states :
  erasable (search_loop self num_steps transition_function keep remaining step_num
              states finished_states).
Proof.
  revert step_num states finished_states.
  induction remaining as [|n IH]; intros step_num states fin; [apply erasable_ret |].
  destruct states as [|s states]; [apply erasable_ret |]. simpl.
  apply erasable_bind; [apply erasable_search_step | auto].
Qed.

Lemma erasable_search_steps self num_steps initial_state transition_function keep :
  erasable (search_steps self num_steps initial_state transition_function keep).
Proof.
  unfold search_steps. apply erasable_bind; [apply erasable_clear_beams |].
  intros _. apply erasable_search_loop.
Qed.

Lemma backfill_Ok finished_states st finished_states' st' :
  is_Some (st_beams st) →
  backfill finished_states st = (Ok finished_states', st') →
  finished_states' = dd_touch 0 finished_states.
Proof.
  intros [log Hlog]. unfold backfill. rewrite Hlog.
  destruct (backfill_states _ _) as [[[]|e] log']; simpl; intros ?; by simplify_eq.
Qed.

Lemma omap_app_Ok {A B} (f : A → outcome B) (l1 l2 : list A) (r : list B) :
  omap f (l1 ++ l2) = Ok r →
  ∃ r1 r2, omap f l1 = Ok r1 ∧ omap f l2 = Ok r2 ∧ r = r1 ++ r2.
Proof.
  revert r. induction l1 as [|x l1 IH]; intros r Hr; simpl in *.
  - by exists [], r.
  - inv_obind Hr. inv_obind Hr. injection Hr as <-.
    apply IH in Ha0 as (r1 & r2 & -> & -> & ->). rewrite Ha. simpl. by exists (a :: r1), r2.
Qed.

Lemma rank_batch_nil self : rank_batch self [] = Ok [].
Proof. unfold rank_batch, py_slice_to. simpl. destruct (_ <? _); by rewrite take_nil. Qed.

Lemma dd_get_app_None {A} (k : Z) (d : ddict A) (l : list A) :
  dd_get k d = None → dd_get k (d ++ [(k, l)]) = Some l.
Proof.
  induction d as [|[k' l'] d IH]; simpl.
  - by rewrite decide_True.
  - case_decide; [done | auto].
Qed.

Lemma dd_get_touch {A} (k : Z) (d : ddict A) : is_Some (dd_get k (dd_touch k d)).
Proof.
  unfold dd_touch. destruct (dd_get k d) as [l|] eqn:Hd.
  - by rewrite Hd.
  - by rewrite dd_get_app_None.
Qed.

Lemma rank_keys self finished_states best_states (k : Z) :
  rank self finished_states = Ok best_states →
  is_Some (dd_get k finished_states) → is_Some (dd_get k best_states).
Proof.
  intros Hr. apply rank_Ok in Hr.
  induction Hr as [|[kf lf] [kb lb] fs bs [Hk _] _ IH]; simpl in *; [done |].
  subst kb. case_decide; eauto.
Qed.

Lemma rank_keys_None self finished_states best_states (k : Z) :
  rank self finished_states = Ok best_states →
  dd_get k finished_states = None → dd_get k best_states = None.
Proof.
  intros Hr. apply rank_Ok in Hr.
  induction Hr as [|[kf lf] [kb lb] fs bs [Hk _] _ IH]; simpl in *; [done |].
  subst kb. case_decide; [done | auto].
Qed.

(** What the log adds to the returned mapping. *)
Lemma search_call_with_log self num_steps initial_state transition_function keep
    best_states self' :
  is_Some (beams self) →
  search_call self num_steps initial_state transition_function keep = (Ok best_states, self') →
  is_Some (dd_get 0 best_states) ∧
  ∃ best_off self_off,
    search_call (without_log self) num_steps initial_state transition_function keep
      = (Ok best_off, self_off) ∧
    match dd_get 0 best_off with
    | Some _ => best_states = best_off
    | None => best_states = best_off ++ [(0, [])] ∧ dd_get 0 best_states = Some []
    end.
Proof.
  intros Hlog Hs. apply search_call_Ok in Hs as (st' & Hs & _).
  apply search_Ok in Hs as (fin' & Hfin & Hrank).
  unfold search_finished in Hfin. inv_bind Hfin. destruct a as [active fin].
  assert (Hst : is_Some (st_beams st)).
  { pose proof (keeps_search_loop self num_steps transition_function keep
      (Z.to_nat num_steps) 1 [initial_state] [] ((clear_beams (enter self)).2)) as Hk.
    unfold search_steps, bind in Ha. simpl in Ha, Hk. rewrite Ha in Hk.
    apply Hk. simpl. by rewrite fmap_is_Some. }
  apply (backfill_Ok _ _ _ _ Hst) in Hfin as ->. simpl in Hrank.
  split; [eapply rank_keys; [exact Hrank | apply dd_get_touch] |].
  apply erasable_search_steps in Ha.
  assert (Hoff : ∀ best_off, rank self fin = Ok best_off →
    search_call (without_log self) num_steps initial_state transition_function keep
    = (Ok best_off, leave (without_log self) (erase st))).
  { intros best_off Hr. unfold search_call.
    rewrite (search_config (without_log self) self) by done.
    unfold search, search_finished, bind.
    change (enter (without_log self)) with (erase (enter self : store StateType)).
    rewrite Ha. simpl. unfold lift. by rewrite Hr. }
  unfold dd_touch in Hrank. destruct (dd_get 0 fin) as [l|] eqn:Hget.
  - exists best_states, (leave (without_log self) (erase st)).
    split; [by apply Hoff |].
    destruct (rank_keys self fin best_states 0 Hrank) as [l' ->]; [by rewrite Hget | done].
  - unfold rank in Hrank. apply omap_app_Ok in Hrank as (best_off & r2 & Hr1 & Hr2 & ->).
    cbn [omap] in Hr2. rewrite rank_batch_nil in Hr2. simpl in Hr2. injection Hr2 as <-.
    exists best_off, (leave (without_log self) (erase st)).
    split; [by apply Hoff |].
    rewrite (rank_keys_None self fin best_off 0 Hr1 Hget).
    split; [done |]. apply dd_get_app_None. by apply (rank_keys_None self fin).
Qed.
End erasure.

(** ** Construction *)

(** The map built from one sequence sends each of its proper prefixes to
    the action that follows the prefix. *)
Lemma prefix_tree_lookup (history seq : list Z) (i : nat) (action : Z) :
  seq !! i = Some action →
  prefix_tree history seq !! (history ++ take i seq) = Some action.
Proof.
  revert history i. induction seq as [|a rest IH]; intros history i Hi; [done |].
  destruct i as [|j]; simpl in *.
  - injection Hi as ->. by rewrite app_nil_r, lookup_insert_eq.
  - rewrite lookup_insert_ne.
    + rewrite (cons_middle a history), app_assoc. by apply IH.
    + intros Heq. apply (f_equal length) in Heq.
      rewrite length_app in Heq. simpl in Heq. lia.
Qed.

Lemma construct_prefix_tree_one (seq : list Z) :
  py_index (construct_prefix_tree [[seq]]) 0 = Ok (prefix_tree [] seq ∪ ∅).
Proof. done. Qed.

Lemma __init___Ok beam_size per_node_beam_size initial_sequence keep_beam_details :
  __init__ beam_size per_node_beam_size initial_sequence keep_beam_details
  = Ok {| _beam_size := beam_size;
          _per_node_beam_size := or_default per_node_beam_size beam_size;
          _allowed_transitions := (λ seq, prefix_tree [] seq ∪ ∅) <$> initial_sequence;
          beams := if keep_beam_details then Some [] else None |}.
Proof.
  unfold __init__. destruct initial_sequence as [seq|]; [|done].
  by rewrite construct_prefix_tree_one.
Qed.

(** C9.  On an engine that has the configuration of a constructed one,
    [constrained_to] returns a new engine with the beam sizes of the
    receiver, the constraint map built from the given sequence and, unless
    [keep_beam_details] is passed as false, an empty log; the receiver is
    what it was. *)
Theorem constrained_to_new_engine
    beam_size per_node_beam_size initial_sequence keep_beam_details self0 self
    sequence keep_beam_details' :
  __init__ beam_size per_node_beam_size initial_sequence keep_beam_details = Ok self0 →
  same_config self0 self →
  ∃ new,
    constrained_to_call self sequence keep_beam_details' = (Ok new, self) ∧
    _beam_size new = _beam_size self ∧
    _per_node_beam_size new = _per_node_beam_size self ∧
    _allowed_transitions new = construct_prefix_tree [[sequence]] !! 0%nat ∧
    beams new = (if default true keep_beam_details' then Some [] else None) ∧
    (keep_beam_details' = None → beams new = Some []).
Proof.
  rewrite __init___Ok. intros [= <-] (Hb & Hp & _). simpl in Hb, Hp.
  unfold constrained_to_call, constrained_to. rewrite __init___Ok.
  eexists. split; [done |]. simpl. repeat split; [| by intros ->].
  rewrite <- Hp, <- Hb. unfold or_default.
  destruct per_node_beam_size as [p|]; repeat case_decide; congruence.
Qed.

(** C4, as the code has it.  Nothing is validated, and nothing fails on
    values that are not positive.  The constructor stores [beam_size] as it
    is given, stores a [per_node_beam_size] other than [0] as it is given,
    and replaces a [per_node_beam_size] that is missing or [0] by
    [beam_size].  A search with [num_steps <= 0], on any engine, takes no
    step, makes no call to the transition function and returns the empty
    mapping, or the mapping of batch index [0] to the empty list when the log
    is kept. *)
Theorem nothing_is_validated {StateType} `{StateOps : State StateType}
    beam_size per_node_beam_size initial_sequence keep_beam_details
    self' num_steps (initial_state : StateType) transition_function keep :
  (∃ self,
     __init__ beam_size per_node_beam_size initial_sequence keep_beam_details = Ok self ∧
     _beam_size self = beam_size ∧
     (per_node_beam_size = None ∨ per_node_beam_size = Some 0 →
        _per_node_beam_size self = beam_size) ∧
     (∀ p, per_node_beam_size = Some p → p ≠ 0 → _per_node_beam_size self = p)) ∧
  (num_steps ≤ 0 →
     search self' num_steps initial_state transition_function keep (enter self')
     = (Ok (match beams self' with Some _ => [(0, [])] | None => [] end),
        {| st_beams := (λ _, []) <$> beams self'; st_calls := [] |})).
Proof.
  split.
  - rewrite __init___Ok. eexists. split; [done |]. simpl.
    split; [done |]. split; [by intros [-> | ->] |].
    intros p -> Hp. simpl. by rewrite decide_False.
  - intros Hn. unfold search, search_finished, search_steps, bind, enter. simpl.
    replace (Z.to_nat num_steps) with 0%nat by lia.
    destruct (beams self') as [log|]; simpl; [|done].
    unfold backfill. simpl. unfold lift, rank, dd_touch. cbn [dd_get app omap].
    by rewrite rank_batch_nil.
Qed.

(** C10.  When the log is kept, the mapping that [search] returns has the
    key [0]; it is the mapping returned without the log if that one has the
    key [0], and that mapping followed by the key [0] with the empty list if
    it has not.  The second case occurs: on the state space [Tree], from a
    root of batch index [1]. *)
Theorem search_with_log_returns_batch_0 :
  (∀ StateType (StateOps : State StateType) self num_steps (initial_state : StateType)
     transition_function keep best_states self',
     is_Some (beams self) →
     search_call self num_steps initial_state transition_function keep
       = (Ok best_states, self') →
     is_Some (dd_get 0 best_states) ∧
     ∃ best_off self_off,
       search_call (without_log self) num_steps initial_state transition_function keep
         = (Ok best_off, self_off) ∧
       match dd_get 0 best_off with
       | Some _ => best_states = best_off
       | None => best_states = best_off ++ [(0, [])] ∧ dd_get 0 best_states = Some []
       end) ∧
  (∃ best_on best_off,
     (search_call (Tree.engine 2 true) 3 (Tree.root [1]) Tree.stopping true).1 = Ok best_on ∧
     (search_call (Tree.engine 2 false) 3 (Tree.root [1]) Tree.stopping true).1 = Ok best_off ∧
     dd_get 0 best_on = Some [] ∧ dd_get 0 best_off = None).
Proof.
  split.
  - intros. by eapply search_call_with_log.
  - eexists _, _. split; [vm_compute; reflexivity |].
    split; [vm_compute; reflexivity |]. by vm_compute.
Qed.

(** ** The properties on the state space [Tree] *)

Lemma Forall2_premise {A B} (P : A → Prop) (Q R : A → B → Prop)
    (l : list A) (l' : list B) :
  Forall P l →
  Forall2 (λ a b, Q a b ∧ (P a → R a b)) l l' →
  Forall2 (λ a b, Q a b ∧ R a b) l l'.
Proof.
  intros HP H2. induction H2 as [|a b l l' [HQ HR] _ IH]; [constructor |].
  apply Forall_cons in HP as [Ha HP]. constructor; [split; auto | by apply IH].
Qed.

Section examples.
Import Tree.

(** The binary tree of depth 3 with a beam of 2: both lists have 2 states. *)
Lemma search_lists_within_beam_size_witness :
  0 ≤ _beam_size (engine 2 true) ∧
  search_call (engine 2 true) 3 (root [0]) binary true = (Ok binary_best, binary_self) ∧
  Forall (λ b, Z.of_nat (length b.2) ≤ _beam_size (engine 2 true)) binary_best.
Proof.
  assert (H1 : 0 ≤ _beam_size (engine 2 true)) by (simpl; lia).
  assert (H2 : search_call (engine 2 true) 3 (root [0]) binary true
               = (Ok binary_best, binary_self)) by (vm_compute; reflexivity).
  split; [exact H1 |]. split; [exact H2 |].
  exact (search_lists_within_beam_size _ _ _ _ _ _ _ H1 H2).
Defined.

(** A score that is NaN: the list comes back as it was appended, the
    state of score [-3] before the state of score [-1]. *)
Lemma search_lists_sorted_counterexample :
  search_call (engine 4 false) 1 Scored.start Scored.four true
  = (Ok [(0, [Scored.finished_with (Num (-3)) 0; Scored.finished_with NaN 1;
              Scored.finished_with (Num (-1)) 2; Scored.finished_with (Num (-2)) 3])],
     engine 4 false) ∧
  ¬ score_ge (Scored.finished_with (Num (-3)) 0) (Scored.finished_with (Num (-1)) 2) ∧
  ¬ StronglySorted score_ge
      [Scored.finished_with (Num (-3)) 0; Scored.finished_with NaN 1;
       Scored.finished_with (Num (-1)) 2; Scored.finished_with (Num (-2)) 3].
Proof.
  split; [vm_compute; reflexivity |].
  assert (Hlt : ¬ score_ge (Scored.finished_with (Num (-3)) 0)
                           (Scored.finished_with (Num (-1)) 2)).
  { intros (x & y & Hx & Hy & Hle). vm_compute in Hx, Hy.
    injection Hx as <-. injection Hy as <-. lia. }
  split; [exact Hlt |].
  intros Hsorted. apply StronglySorted_inv in Hsorted as [_ Hhead].
  apply Forall_cons in Hhead as [_ Hhead]. apply Forall_cons in Hhead as [Hge _].
  by apply Hlt.
Qed.

(** The state found second has the better score and is returned first. *)
Lemma search_lists_sorted_stable_witness :
  search_call (engine 2 true) 3 (root [0]) halting true = (Ok halting_best, halting_self) ∧
  ∃ finished_states,
    (search_finished (engine 2 true) 3 (root [0]) halting true (enter (engine 2 true))).1
      = Ok finished_states ∧
    Forall (λ f, Forall scored f.2) finished_states ∧
    Forall2 (λ f b,
               b.1 = f.1 ∧
               StronglySorted score_ge b.2 ∧
               ∀ v, filter (λ state, score0 state = Some v) b.2
                      `prefix_of` filter (λ state, score0 state = Some v) f.2)
            finished_states halting_best.
Proof.
  assert (H1 : search_call (engine 2 true) 3 (root [0]) halting true
               = (Ok halting_best, halting_self)) by (vm_compute; reflexivity).
  split; [exact H1 |].
  destruct (search_lists_sorted_stable _ _ _ _ _ _ _ H1) as (fin & Hfin & Hall).
  exists fin. split; [exact Hfin |].
  assert (Hscored : Forall (λ f, Forall scored f.2) fin).
  { assert (Hc : (search_finished (engine 2 true) 3 (root [0]) halting true
                    (enter (engine 2 true))).1 = Ok TreeRuns.halting_filled)
      by (vm_compute; reflexivity).
    rewrite Hc in Hfin. injection Hfin as <-.
    repeat constructor; eexists; reflexivity. }
  split; [exact Hscored |].
  exact (Forall2_premise _ _ _ _ _ Hscored Hall).
Defined.

(** The engine [forced] follows [0; 1]: at the root the restriction is
    [0], and of the two actions of [binary] the step keeps the action [0]. *)
Lemma search_step_allowed_actions_witness :
  action_history (combine_states [root [0]]) = [[]] ∧
  invokes forced 3 binary true 1 [root [0]] [] (enter forced) (Some [0]) ∧
  take_step binary (combine_states [root [0]]) (_per_node_beam_size forced) (Some [0])
  = Ok [[{| m_batch := 0; m_score := -1; m_history := [0] |}]] ∧
  (search_step forced 3 binary true 1 [root [0]] [] (enter forced)).1
  = Ok ([[{| m_batch := 0; m_score := -1; m_history := [0] |}]], []).
Proof.
  assert (H1 : action_history (combine_states [root [0]]) = [] :: []) by reflexivity.
  split; [exact H1 |].
  destruct (search_step_allowed_actions forced 3 binary true 1 [root [0]] []
              (enter forced) [] [] H1) as (Hkey & _ & _).
  assert (Hinv : invokes forced 3 binary true 1 [root [0]] [] (enter forced) (Some [0])).
  { apply (Hkey (prefix_tree [] [0; 1]) 0); [reflexivity | by vm_compute]. }
  split; [exact Hinv |].
  assert (Htake : take_step binary (combine_states [root [0]]) (_per_node_beam_size forced)
                    (Some [0])
                  = Ok [[{| m_batch := 0; m_score := -1; m_history := [0] |}]])
    by (vm_compute; reflexivity).
  split; [exact Htake |].
  destruct Hinv as (_ & _ & _ & _ & Hcompletes).
  destruct (Hcompletes _ Htake) as [st' Hstep].
  - repeat constructor; by eexists.
  - intros [log Hlog]. discriminate Hlog.
  - by rewrite Hstep.
Defined.

(** One step from two roots: the surviving beam of batch index [0], then
    that of batch index [1]. *)
Lemma search_step_one_call_first_beam_size_witness :
  0 ≤ _beam_size (engine 2 false) ∧
  search_step (engine 2 false) 3 binary true 1 [root [0; 1]] [] (enter (engine 2 false))
    = (Ok (value ([], []) first_step.1), first_step.2) ∧
  ∃ allowed candidates,
    st_calls first_step.2
    = st_calls (enter (engine 2 false) : store group)
        ++ [{| call_state := combine_states [root [0; 1]];
               call_max_actions := _per_node_beam_size (engine 2 false);
               call_allowed_actions := allowed |}] ∧
    take_step binary (combine_states [root [0; 1]]) (_per_node_beam_size (engine 2 false))
      allowed = Ok candidates ∧
    (value ([], []) first_step.1).1
    = concat (take (Z.to_nat (_beam_size (engine 2 false)))
                <$> by_batch (unfinished candidates)).
Proof.
  assert (H1 : 0 ≤ _beam_size (engine 2 false)) by (simpl; lia).
  assert (H2 : search_step (engine 2 false) 3 binary true 1 [root [0; 1]] []
                 (enter (engine 2 false))
               = (Ok ((value ([], []) first_step.1).1, (value ([], []) first_step.1).2),
                  first_step.2)) by (vm_compute; reflexivity).
  split; [exact H1 |]. split; [exact H2 |].
  exact (search_step_one_call_first_beam_size _ _ _ _ _ _ _ _ _ _ _ H1 H2).
Defined.

(** C5 fails on two batch indices: one step is completed, and the log has
    two entries, one for each batch index, each with the one unfinished
    candidate of that batch index; the log still has two entries when
    [search] returns.  It fails on one batch index as well: after two
    completed steps of [halting], the second with finished candidates only,
    the log has one entry, without the finished candidate of the first
    step. *)
Lemma one_log_entry_per_step_counterexample :
  (∃ r c,
     search_steps (engine 2 true) 1 (root [0; 1]) stopping true (enter (engine 2 true))
     = (Ok r, {| st_beams := Some [[(Num (-1), [0])]; [(Num (-1), [0])]]; st_calls := [c] |})) ∧
  beams (search_call (engine 2 true) 1 (root [0; 1]) stopping true).2
  = Some [[(Num (-1), [0]); (Num (-1), [0]); (Num (-2), [9])]; [(Num (-1), [0])]] ∧
  (∃ r c1 c2,
     search_steps (engine 2 true) 2 (root [0]) halting true (enter (engine 2 true))
     = (Ok r, {| st_beams := Some [[(Num (-1), [0])]]; st_calls := [c1; c2] |})).
Proof.
  split; [eexists _, _; vm_compute; reflexivity |].
  split; [vm_compute; reflexivity |].
  eexists _, _, _. vm_compute. reflexivity.
Qed.

Lemma search_steps_log_witness :
  is_Some (beams (engine 2 true)) ∧
  search_steps (engine 2 true) 1 (root [0; 1]) stopping true (enter (engine 2 true))
    = (Ok (value ([], []) two_batches.1), two_batches.2) ∧
  ∃ per_step entries,
    Forall2 (answers stopping) (st_calls two_batches.2) per_step ∧
    omap (omap beam_pair)
      (concat ((λ candidates, by_batch (unfinished candidates)) <$> per_step)) = Ok entries ∧
    st_beams two_batches.2 = Some entries.
Proof.
  assert (H1 : is_Some (beams (engine 2 true))) by (by eexists).
  assert (H2 : search_steps (engine 2 true) 1 (root [0; 1]) stopping true
                 (enter (engine 2 true))
               = (Ok (value ([], []) two_batches.1), two_batches.2))
    by (vm_compute; reflexivity).
  split; [exact H1 |]. split; [exact H2 |].
  exact (search_steps_log _ _ _ _ _ _ _ H1 H2).
Defined.

(** Every path of [halting] is finished after two steps. *)
Lemma search_keep_final_irrelevant_witness :
  (∀ active, active_after (engine 2 true) (3 - 1) (root [0]) halting active → active = []) ∧
  search_call (engine 2 true) 3 (root [0]) halting true
  = search_call (engine 2 true) 3 (root [0]) halting false.
Proof.
  assert (H1 : ∀ active,
             active_after (engine 2 true) (3 - 1) (root [0]) halting active → active = []).
  { intros active (fin & st' & Hrun). vm_compute in Hrun. by injection Hrun as <-. }
  split; [exact H1 |].
  exact (search_keep_final_irrelevant _ _ _ _ H1).
Defined.

Lemma search_twice_witness :
  search_call (engine 2 true) 3 (root [0]) binary true = (Ok binary_best, binary_self) ∧
  search_call binary_self 3 (root [0]) binary true = (Ok binary_best, binary_self) ∧
  ∀ log, search_call (with_log binary_self log) 3 (root [0]) binary true
         = (Ok binary_best, binary_self).
Proof.
  assert (H1 : search_call (engine 2 true) 3 (root [0]) binary true
               = (Ok binary_best, binary_self)) by (vm_compute; reflexivity).
  split; [exact H1 |].
  exact (search_twice _ _ _ _ _ _ _ H1).
Defined.

Lemma constrained_to_new_engine_witness :
  __init__ 2 None None false = Ok (engine 2 false) ∧
  same_config (engine 2 false) (engine 2 false) ∧
  ∃ new,
    constrained_to_call (engine 2 false) [0; 1] None = (Ok new, engine 2 false) ∧
    _beam_size new = _beam_size (engine 2 false) ∧
    _per_node_beam_size new = _per_node_beam_size (engine 2 false) ∧
    _allowed_transitions new = construct_prefix_tree [[ [0; 1] ]] !! 0%nat ∧
    beams new = (if default true None then Some [] else None) ∧
    (@None bool = None → beams new = Some []).
Proof.
  assert (H1 : __init__ 2 None None false = Ok (engine 2 false)) by reflexivity.
  assert (H2 : same_config (engine 2 false) (engine 2 false)) by (by repeat split).
  split; [exact H1 |]. split; [exact H2 |].
  exact (constrained_to_new_engine _ _ _ _ _ _ [0; 1] None H1 H2).
Defined.

(** C4 fails: beam sizes that are not positive construct an engine, a
    [per_node_beam_size] of [0] becomes the beam size, and a search of [0]
    steps returns. *)
Lemma fail_fast_counterexample :
  ¬ fails (__init__ 0 (Some (-1)) None false) ∧
  __init__ 3 (Some 0) None false = Ok (engine 3 false) ∧
  ¬ fails (search_call (engine 2 false) 0 (root [0]) binary true).1.
Proof.
  split; [by intros [e He] |]. split; [reflexivity |]. by intros [e He].
Qed.

Lemma nothing_is_validated_witness :
  (∃ self, __init__ 0 (Some 0) None true = Ok self ∧ _per_node_beam_size self = 0) ∧
  0 ≤ 0 ∧
  search (engine (-1) true) 0 (root [0]) binary true (enter (engine (-1) true))
  = (Ok [(0, [])], {| st_beams := Some []; st_calls := [] |}).
Proof.
  destruct (nothing_is_validated 0 (Some 0) None true (engine (-1) true) 0 (root [0])
              binary true) as ((self & Hinit & _ & Hzero & _) & Hsearch).
  split; [exists self; split; [exact Hinit | apply Hzero; by right] |].
  split; [lia |]. apply Hsearch. lia.
Defined.

Lemma search_with_log_returns_batch_0_witness :
  is_Some (beams (engine 2 true)) ∧
  search_call (engine 2 true) 3 (root [1]) stopping true = (Ok stopping_best, stopping_self) ∧
  is_Some (dd_get 0 stopping_best).
Proof.
  assert (H1 : is_Some (beams (engine 2 true))) by (by eexists).
  assert (H2 : search_call (engine 2 true) 3 (root [1]) stopping true
               = (Ok stopping_best, stopping_self)) by (vm_compute; reflexivity).
  split; [exact H1 |]. split; [exact H2 |].
  exact (proj1 (proj1 search_with_log_returns_batch_0 _ _ _ _ _ _ _ _ _ H1 H2)).
Defined.
End examples.

(** * Further properties of [search] *)

(** ** The run of the loop *)

Section run.
Context {StateType : Type} `{StateOps : State StateType}.
Implicit Types (state : StateType) (self : BeamSearch) (st : store StateType)
  (candidates states : list StateType) (finished_states : ddict StateType)
  (transition_function : TransitionFunction StateType).

Lemma dd_extend_app {A} (d : ddict A) (kvs kvs' : list (Z * A)) :
  dd_extend (dd_extend d kvs) kvs' = dd_extend d (kvs ++ kvs').
Proof. unfold dd_extend. by rewrite foldl_app. Qed.

(** A step that completes, with what it has checked. *)
Lemma search_step_checked self num_steps transition_function keep step_num
    states finished_states st states' finished_states' st' :
  search_step self num_steps transition_function keep step_num states finished_states st
    = (Ok (states', finished_states'), st') →
  ∃ allowed candidates,
    allowed_actions_for self (combine_states states) = Ok allowed ∧
    take_step transition_function (combine_states states) (_per_node_beam_size self) allowed
      = Ok candidates ∧
    Forall checked candidates ∧
    st_calls st' = st_calls st ++ [{| call_state := combine_states states;
                                     call_max_actions := _per_node_beam_size self;
                                     call_allowed_actions := allowed |}] ∧
    states' = survivors self candidates ∧
    finished_states'
    = dd_extend finished_states
        (tag <$> retained (bool_decide (step_num = num_steps) && keep) candidates).
Proof.
  intros Hs.
  destruct (search_step_Ok _ _ _ _ _ _ _ _ _ _ _ Hs)
    as (allowed & candidates & Hallowed & Htake & Hc & Hstates & Hfin & _).
  exists allowed, candidates. repeat split; try done.
  unfold search_step in Hs.
  inv_bind Hs. apply lift_Ok in Ha as [Hallowed' ->].
  inv_bind Hs. apply call_take_step_Ok in Ha as (Htake' & _ & _).
  inv_bind Hs. apply lift_Ok in Ha as [Hfile ->]. destruct a1 as [fin nx].
  rewrite Hallowed in Hallowed'. injection Hallowed' as <-.
  rewrite Htake in Htake'. injection Htake' as <-.
  by apply file_candidates_Ok in Hfile as (Hall & _ & _).
Qed.

(** The loop, when it completes. *)
Lemma search_loop_run self num_steps transition_function keep remaining step_num
    states finished_states st states' finished_states' st' :
  search_loop self num_steps transition_function keep remaining step_num
    states finished_states st = (Ok (states', finished_states'), st') →
  ∃ steps,
    run self transition_function states steps states' ∧
    st_calls st' = st_calls st ++ steps.*1 ∧
    (length steps ≤ remaining)%nat ∧
    (length steps = remaining ∨ states' = []) ∧
    finished_states'
    = dd_extend finished_states (tag <$> retained_over num_steps keep step_num (steps.*2)).
Proof.
  revert step_num states finished_states st.
  induction remaining as [|n IH]; intros step_num states fin st Hl.
  - injection Hl as <- <- <-. exists []. rewrite app_nil_r.
    repeat split; [constructor | done | by left].
  - destruct states as [|s states].
    { injection Hl as <- <- <-. exists []. rewrite app_nil_r.
      repeat split; [constructor | simpl; lia | by right]. }
    simpl in Hl. inv_bind Hl. destruct a as [states1 fin1].
    apply search_step_checked in Ha
      as (allowed & candidates & Hallowed & Htake & Hchecked & Hc & -> & ->).
    apply IH in Hl as (steps & Hrun & Hc' & Hlen & Hend & ->).
    eexists (_ :: steps). split; [by apply run_step |].
    split; [by rewrite Hc', Hc, <- app_assoc |].
    split; [simpl; lia |].
    split; [destruct Hend as [<- | ->]; [by left | by right] |].
    csimpl. by rewrite dd_extend_app, fmap_app.
Qed.

Lemma backfill_calls finished_states st :
  st_calls (backfill finished_states st).2 = st_calls st.
Proof. unfold backfill. by destruct (st_beams st). Qed.

(** [search] up to the end of the loop, when it completes. *)
Lemma search_steps_run self num_steps initial_state transition_function keep
    active finished_states st' :
  search_steps self num_steps initial_state transition_function keep (enter self)
    = (Ok (active, finished_states), st') →
  ∃ steps,
    run self transition_function [initial_state] steps active ∧
    st_calls st' = steps.*1 ∧
    (length steps ≤ Z.to_nat num_steps)%nat ∧
    (length steps = Z.to_nat num_steps ∨ active = []) ∧
    finished_states = dd_extend [] (tag <$> retained_over num_steps keep 1 (steps.*2)).
Proof.
  unfold search_steps. intros Hs. inv_bind Hs.
  unfold clear_beams in Ha. injection Ha as <- <-.
  apply search_loop_run in Hs as (steps & Hrun & Hc & Hlen & Hend & Hfin).
  exists steps. simpl in Hc. by repeat split.
Qed.

Lemma keeps_search_steps self num_steps initial_state transition_function keep :
  keeps_log (search_steps self num_steps initial_state transition_function keep).
Proof.
  unfold search_steps. apply keeps_bind; [apply keeps_clear_beams |].
  intros _. apply keeps_search_loop.
Qed.

(** [search], when it returns. *)
Lemma search_run self num_steps initial_state transition_function keep best_states st' :
  search self num_steps initial_state transition_function keep (enter self)
    = (Ok best_states, st') →
  ∃ steps active finished_states,
    run self transition_function [initial_state] steps active ∧
    st_calls st' = steps.*1 ∧
    (length steps ≤ Z.to_nat num_steps)%nat ∧
    (length steps = Z.to_nat num_steps ∨ active = []) ∧
    finished_states = dd_extend [] (tag <$> retained_over num_steps keep 1 (steps.*2)) ∧
    rank self (if beams self is Some _ then dd_touch 0 finished_states else finished_states)
      = Ok best_states.
Proof.
  intros Hs. apply search_Ok in Hs as (fin' & Hfin & Hrank).
  unfold search_finished in Hfin. inv_bind Hfin. destruct a as [active fin].
  simpl in Hfin.
  pose proof (backfill_calls fin st) as Hbc. rewrite Hfin in Hbc. simpl in Hbc.
  pose proof (keeps_search_steps self num_steps initial_state transition_function keep
                (enter self)) as Hk.
  rewrite Ha in Hk. simpl in Hk.
  apply search_steps_run in Ha as (steps & Hrun & Hc & Hlen & Hend & Hf).
  exists steps, active, fin. repeat split; try done; [congruence |].
  destruct (beams self) as [log|].
  - assert (Hst : is_Some (st_beams st)) by (apply Hk; eauto).
    by rewrite <- (backfill_Ok _ _ _ _ Hst Hfin).
  - assert (Hst : st_beams st = None).
    { destruct (st_beams st) eqn:Hb; [|done]. destruct Hk as [Hk _].
      by destruct Hk as [? [=]]; eauto. }
    unfold backfill in Hfin. rewrite Hst in Hfin. by injection Hfin as <- _.
Qed.
End run.

(** ** The best states *)

Section best.
Context {StateType : Type} `{StateOps : State StateType}.
Implicit Types (state : StateType) (self : BeamSearch)
  (transition_function : TransitionFunction StateType).

Lemma StronglySorted_app_elem_of {B} (R : B → B → Prop) (l1 l2 : list B) (x y : B) :
  StronglySorted R (l1 ++ l2) → x ∈ l1 → y ∈ l2 → R x y.
Proof.
  induction l1 as [|z l1 IH]; intros Hs Hx Hy; [by apply elem_of_nil in Hx |].
  simpl in Hs. apply StronglySorted_inv in Hs as [Hs Hz].
  apply elem_of_cons in Hx as [-> | Hx]; [|by apply IH].
  rewrite Forall_forall in Hz. apply Hz. apply elem_of_app. by right.
Qed.

(** What one ranking keeps and what it drops. *)
Lemma rank_batch_split self (batch_states best : list StateType) :
  rank_batch self batch_states = Ok best →
  ∃ dropped,
    best ++ dropped ≡ₚ batch_states ∧
    (Forall scored batch_states →
     ∀ s s', s ∈ best → s' ∈ dropped → score_ge s s') ∧
    (0 ≤ _beam_size self →
     length best = (Z.to_nat (_beam_size self) `min` length batch_states)%nat) ∧
    (_beam_size self < 0 →
     length best = (length batch_states - Z.to_nat (- _beam_size self))%nat).
Proof.
  unfold rank_batch. intros Hr. inv_obind Hr. injection Hr as <-.
  destruct (keyed_pairs _ _ Ha) as [Hsnd Hkeyed].
  assert (Hks : Forall keyed (py_sort a)) by by rewrite py_sort_perm.
  assert (Hlen : length (py_sort a) = length batch_states).
  { by rewrite py_sort_perm, <- Hsnd, length_fmap. }
  destruct (py_slice_to_take (py_sort a) (_beam_size self)) as [n Hn].
  exists ((drop n (py_sort a)).*2). rewrite Hn. split_and!.
  - rewrite <- fmap_app, take_drop, <- Hsnd. apply fmap_Permutation, py_sort_perm.
  - intros Hscored s s' Hs Hs'.
    apply list_elem_of_fmap in Hs as (p & -> & Hp).
    apply list_elem_of_fmap in Hs' as (q & -> & Hq).
    assert (Hsorted : StronglySorted key_le (py_sort a)).
    { apply py_sort_sorted, keyed_number; [done | by rewrite Hsnd]. }
    rewrite <- (take_drop n (py_sort a)) in Hsorted.
    pose proof (StronglySorted_app_elem_of _ _ _ p q Hsorted Hp Hq) as Hpq.
    rewrite Forall_forall in Hks.
    pose proof (Hks p (subseteq_take n _ p Hp)) as Hkp.
    assert (Hkq : keyed q).
    { apply Hks. rewrite <- (take_drop n (py_sort a)). apply elem_of_app. by right. }
    unfold keyed in *. unfold key_le in Hpq. unfold score_ge. rewrite Hkp, Hkq.
    destruct p.1 as [x|], q.1 as [y|]; simpl in Hpq; try done.
    exists (- x), (- y). repeat split. lia.
  - intros Hk. rewrite <- Hn, py_slice_to_nonneg by done.
    by rewrite length_fmap, length_take, Hlen.
  - intros Hk. rewrite <- Hn. unfold py_slice_to.
    destruct (Z.ltb_spec (_beam_size self) 0); [|lia].
    rewrite length_fmap, length_take, Hlen. lia.
Qed.
End best.

(** ** What the run keeps and returns *)

Section returned_states.
Context {StateType : Type} `{StateOps : State StateType}.
Implicit Types (state : StateType) (self : BeamSearch) (st : store StateType)
  (candidates states : list StateType) (finished_states : ddict StateType)
  (transition_function : TransitionFunction StateType).

Lemma run_answers self transition_function states steps states' :
  run self transition_function states steps states' →
  Forall2 (answers transition_function) (steps.*1) (steps.*2).
Proof. induction 1; csimpl; constructor; done. Qed.

Lemma run_each self transition_function states steps states' :
  run self transition_function states steps states' →
  Forall (λ cs, answers transition_function cs.1 cs.2 ∧ Forall checked cs.2) steps.
Proof. induction 1; constructor; done. Qed.

Lemma run_checked self transition_function states steps states' :
  run self transition_function states steps states' →
  Forall (Forall checked) (steps.*2).
Proof. induction 1; csimpl; constructor; done. Qed.

Lemma retained_elem_of (flag : bool) candidates state :
  state ∈ retained flag candidates →
  state ∈ candidates ∧ (is_finished state = Ok true ∨ flag = true).
Proof.
  unfold retained. destruct flag; [auto |].
  intros Hs. apply list_elem_of_filter in Hs as [Hf Hs]. auto.
Qed.

Lemma retained_over_elem_of num_steps keep step_num (per_step : list (list StateType)) state :
  state ∈ retained_over num_steps keep step_num per_step →
  ∃ candidates, candidates ∈ per_step ∧ state ∈ candidates ∧
                (is_finished state = Ok true ∨ keep = true).
Proof.
  revert step_num. induction per_step as [|candidates rest IH]; intros step_num Hs; simpl in Hs.
  - by apply elem_of_nil in Hs.
  - apply elem_of_app in Hs as [Hs | Hs].
    + apply retained_elem_of in Hs as [Hs Hf]. exists candidates.
      split; [by left |]. split; [done |].
      destruct Hf as [Hf | Hf]; [by left |]. right.
      by apply andb_true_iff in Hf as [_ ->].
    + apply IH in Hs as (c & Hc & Hs & Hf). exists c. split; [by right | done].
Qed.

Lemma retained_over_lookup num_steps keep step_num (per_step : list (list StateType))
    (i : nat) candidates state :
  per_step !! i = Some candidates →
  state ∈ retained (bool_decide (step_num + Z.of_nat i = num_steps) && keep) candidates →
  state ∈ retained_over num_steps keep step_num per_step.
Proof.
  revert step_num i. induction per_step as [|c rest IH]; intros step_num i Hi Hs; [done |].
  simpl. apply elem_of_app. destruct i as [|i]; simpl in Hi.
  - injection Hi as ->. left. by rewrite Z.add_0_r in Hs.
  - right. apply (IH _ i Hi).
    by replace (step_num + 1 + Z.of_nat i) with (step_num + Z.of_nat (S i)) by lia.
Qed.

(** the accumulator that the appends build, in closed form *)
Lemma dd_extend_tag states :
  dd_extend ([] : ddict StateType) (tag <$> states)
  = (λ k : Z, (k, filter (λ state, key state = k) states)) <$> first_seen (key <$> states).
Proof.
  rewrite dd_extend_nil, <- list_fmap_compose.
  apply list_fmap_ext. intros _ k _. simpl. by rewrite values_of_tag.
Qed.

Lemma accumulator_elem_of states (b : Z) (l : list StateType) state :
  (b, l) ∈ dd_extend [] (tag <$> states) → state ∈ l → state ∈ states ∧ key state = b.
Proof.
  rewrite dd_extend_tag. intros Hb Hs.
  apply list_elem_of_fmap in Hb as (k & [= -> ->] & _).
  by apply list_elem_of_filter in Hs as [? ?].
Qed.

Lemma dd_touch_elem_of {A} (d : ddict A) (k b : Z) (l : list A) (x : A) :
  (b, l) ∈ dd_touch k d → x ∈ l → (b, l) ∈ d.
Proof.
  unfold dd_touch. destruct (dd_get k d); [done |].
  intros Hb Hx. apply elem_of_app in Hb as [Hb | Hb]; [done |].
  apply list_elem_of_singleton in Hb as [= -> ->]. by apply elem_of_nil in Hx.
Qed.

Lemma rank_elem_of self finished_states best_states (b : Z) (l : list StateType) state :
  rank self finished_states = Ok best_states →
  (b, l) ∈ best_states → state ∈ l →
  ∃ l', (b, l') ∈ finished_states ∧ state ∈ l'.
Proof.
  intros Hr Hb Hs. apply rank_Ok in Hr.
  induction Hr as [|[kf lf] [kb lb] fs bs [Hk Hrb] _ IH]; [by apply elem_of_nil in Hb |].
  simpl in *. subst kb. apply elem_of_cons in Hb as [[= -> ->] | Hb].
  - exists lf. split; [by left |].
    apply rank_batch_split in Hrb as (dropped & Hperm & _).
    rewrite <- Hperm. apply elem_of_app. by left.
  - destruct (IH Hb) as (l' & Hl' & Hs'). exists l'. split; [by right | done].
Qed.

(** Every state of the returned mapping has entered the accumulator. *)
Lemma search_returned self num_steps initial_state transition_function keep best_states st'
    (b : Z) (l : list StateType) state :
  search self num_steps initial_state transition_function keep (enter self)
    = (Ok best_states, st') →
  (b, l) ∈ best_states → state ∈ l →
  ∃ steps active,
    run self transition_function [initial_state] steps active ∧
    st_calls st' = steps.*1 ∧
    state ∈ retained_over num_steps keep 1 (steps.*2) ∧
    key state = b.
Proof.
  intros Hs Hb Hl.
  apply search_run in Hs as (steps & active & fin & Hrun & Hc & _ & _ & -> & Hrank).
  destruct (rank_elem_of _ _ _ _ _ _ Hrank Hb Hl) as (l' & Hl' & Hs').
  assert (Hfin : (b, l') ∈ dd_extend [] (tag <$> retained_over num_steps keep 1 (steps.*2))).
  { destruct (beams self); [by eapply dd_touch_elem_of | done]. }
  destruct (accumulator_elem_of _ _ _ _ Hfin Hs') as [? ?].
  by exists steps, active.
Qed.

(** X1.  The finished-states accumulator at the end of the loop, in closed
    form: its batch indices are those of the retained candidates, in the
    order of their first retained candidate, and the list of a batch index
    holds the retained candidates of that batch index in the order in which
    the steps produced them. *)
Theorem search_steps_accumulator
    self num_steps initial_state transition_function keep active finished_states st' :
  search_steps self num_steps initial_state transition_function keep (enter self)
    = (Ok (active, finished_states), st') →
  ∃ per_step,
    Forall2 (answers transition_function) (st_calls st') per_step ∧
    Some <$> finished_states.*1
    = first_seen (batch_index0 <$> retained_over num_steps keep 1 per_step) ∧
    finished_states.*2 = by_batch (retained_over num_steps keep 1 per_step).
Proof.
  intros Hs. apply search_steps_run in Hs as (steps & Hrun & Hc & _ & _ & ->).
  exists (steps.*2). rewrite Hc. split; [by eapply run_answers |].
  set (all := retained_over num_steps keep 1 (steps.*2)).
  assert (Hall : Forall checked all).
  { apply Forall_forall. intros s Hs.
    apply retained_over_elem_of in Hs as (c & Hc' & Hs & _).
    pose proof (run_checked _ _ _ _ _ Hrun) as Hch.
    rewrite Forall_forall in Hch. specialize (Hch c Hc').
    rewrite Forall_forall in Hch. by apply Hch. }
  assert (Hsome : Forall (λ state, is_Some (batch_index0 state)) all).
  { eapply Forall_impl; [exact Hall |]. by intros s [? _]. }
  split; [|by apply dd_extend_by_batch].
  rewrite dd_extend_tag, <- !list_fmap_compose.
  rewrite (list_fmap_ext _ Some (first_seen (key <$> all))) by done.
  rewrite <- first_seen_fmap by apply _.
  f_equal. rewrite <- list_fmap_compose. apply Forall_fmap_ext.
  eapply Forall_impl; [exact Hsome |]. intros s [b Hb]. simpl. unfold key. by rewrite Hb.
Qed.

(** X2.  With [keep_final_unfinished_states=False], every state of the
    returned mapping is finished. *)
Theorem search_returns_finished_only
    self num_steps initial_state transition_function best_states self' :
  search_call self num_steps initial_state transition_function false = (Ok best_states, self') →
  Forall (λ b, Forall (λ state, is_finished state = Ok true) b.2) best_states.
Proof.
  intros Hs. apply search_call_Ok in Hs as (st' & Hs & _).
  apply Forall_forall. intros [b l] Hb. apply Forall_forall. intros s Hl.
  destruct (search_returned _ _ _ _ _ _ _ _ _ _ Hs Hb Hl) as (steps & active & _ & _ & Hr & _).
  apply retained_over_elem_of in Hr as (c & _ & _ & [Hf | Hf]); done.
Qed.

(** X3.  Every state of the returned mapping is a candidate that the
    transition function returned at some call of the search, and it is
    listed under its own first batch index. *)
Theorem search_returns_candidates
    self num_steps initial_state transition_function keep best_states st' :
  search self num_steps initial_state transition_function keep (enter self)
    = (Ok best_states, st') →
  Forall (λ b, Forall (λ state,
                  batch_index0 state = Some b.1 ∧
                  ∃ c candidates, c ∈ st_calls st' ∧
                                  answers transition_function c candidates ∧
                                  state ∈ candidates) b.2) best_states.
Proof.
  intros Hs. apply Forall_forall. intros [b l] Hb. apply Forall_forall. intros s Hl.
  destruct (search_returned _ _ _ _ _ _ _ _ _ _ Hs Hb Hl)
    as (steps & active & Hrun & Hc & Hr & Hkey).
  apply retained_over_elem_of in Hr as (cands & Hcands & Hin & _).
  apply list_elem_of_fmap in Hcands as ([c cands'] & -> & Hstep). simpl in *.
  pose proof (run_each _ _ _ _ _ Hrun) as Heach.
  rewrite Forall_forall in Heach. destruct (Heach _ Hstep) as [Hans Hch]. simpl in *.
  rewrite Forall_forall in Hch. split.
  - destruct (Hch s Hin) as [[b' Hb'] _]. unfold key in Hkey. rewrite Hb' in Hkey.
    simpl in Hkey. by subst.
  - exists c, cands'. split; [|done].
    rewrite Hc. apply list_elem_of_fmap. by exists (c, cands').
Qed.
End returned_states.

Section more_returned.
Context {StateType : Type} `{StateOps : State StateType}.
Implicit Types (state : StateType) (self : BeamSearch) (st : store StateType)
  (candidates states : list StateType) (finished_states : ddict StateType)
  (transition_function : TransitionFunction StateType).

(** X4.  The list returned for a batch index holds states of the
    accumulator's list: with the states it drops it is a permutation of that
    list; on a beam size that is not negative it holds [beam_size] states,
    or all of them when they are fewer; on a negative beam size [-k] nothing
    fails, and the slice [[:beam_size]] drops [k] states, or all of them when
    they are fewer.  When the scores of the accumulator's list are all
    numbers, not NaN, the states it holds are the best: each scores at least
    as much as every state it drops. *)
Theorem search_keeps_the_best
    self num_steps initial_state transition_function keep best_states self' :
  search_call self num_steps initial_state transition_function keep = (Ok best_states, self') →
  ∃ finished_states,
    (search_finished self num_steps initial_state transition_function keep (enter self)).1
      = Ok finished_states ∧
    Forall2 (λ f b,
               b.1 = f.1 ∧
               ∃ dropped,
                 b.2 ++ dropped ≡ₚ f.2 ∧
                 (Forall scored f.2 →
                  ∀ s s', s ∈ b.2 → s' ∈ dropped → score_ge s s') ∧
                 (0 ≤ _beam_size self →
                  length b.2 = (Z.to_nat (_beam_size self) `min` length f.2)%nat) ∧
                 (_beam_size self < 0 →
                  length b.2 = (length f.2 - Z.to_nat (- _beam_size self))%nat))
            finished_states best_states.
Proof.
  intros Hs. apply search_call_Ok in Hs as (st' & Hs & _).
  apply search_Ok in Hs as (fin & Hfin & Hr). exists fin.
  split; [by rewrite Hfin |].
  apply rank_Ok in Hr. eapply Forall2_impl; [exact Hr |].
  intros f b [Hkey Hb]. split; [done |]. by apply rank_batch_split.
Qed.

Lemma search_step_calls_le self num_steps transition_function keep step_num
    states finished_states st :
  (length (st_calls (search_step self num_steps transition_function keep step_num
                       states finished_states st).2)
   ≤ length (st_calls st) + 1)%nat.
Proof.
  destruct (allowed_actions_for self (combine_states states)) as [allowed|e] eqn:Ha.
  - destruct (search_step_invokes self num_steps transition_function keep step_num
                states finished_states st allowed Ha) as (_ & -> & _).
    rewrite length_app. simpl. lia.
  - unfold search_step, bind, lift. rewrite Ha. simpl. lia.
Qed.

Lemma search_loop_calls_le self num_steps transition_function keep remaining step_num
    states finished_states st :
  (length (st_calls (search_loop self num_steps transition_function keep remaining step_num
                       states finished_states st).2)
   ≤ length (st_calls st) + remaining)%nat.
Proof.
  revert step_num states finished_states st.
  induction remaining as [|n IH]; intros step_num states fin st; [simpl; lia |].
  destruct states as [|s states]; [simpl; lia |]. simpl. unfold bind.
  pose proof (search_step_calls_le self num_steps transition_function keep step_num
                (s :: states) fin st) as Hstep.
  destruct (search_step _ _ _ _ _ _ _ _) as [[r|e] st1]; simpl in *; [|lia].
  specialize (IH (step_num + 1) r.1 r.2 st1). lia.
Qed.

(** X5.  Whatever the outcome, [search] calls the transition function at
    most [num_steps] times, and not at all when [num_steps <= 0]. *)
Theorem search_calls_at_most_num_steps
    self num_steps initial_state transition_function keep :
  (length (st_calls (search self num_steps initial_state transition_function keep
                       (enter self)).2)
   ≤ Z.to_nat num_steps)%nat.
Proof.
  unfold search, search_finished, search_steps, bind. simpl.
  pose proof (search_loop_calls_le self num_steps transition_function keep
                (Z.to_nat num_steps) 1 [initial_state] []
                {| st_beams := (λ _, []) <$> beams self; st_calls := [] |}) as Hloop.
  destruct (search_loop _ _ _ _ _ _ _ _ _) as [[r|e] st1]; simpl in *; [|lia].
  pose proof (backfill_calls r.2 st1) as Hb.
  destruct (backfill r.2 st1) as [[fin|e] st2]; simpl in *; rewrite Hb; lia.
Qed.

(** X8.  A search that returns has had an answer to each of its calls to
    the transition function, and each candidate of each answer has a first
    batch index and is one on which [is_finished] returns: a call that
    raises, a candidate without batch index or a candidate on which
    [is_finished] raises leaves no mapping. *)
Theorem search_checks_every_candidate
    self num_steps initial_state transition_function keep best_states st' :
  search self num_steps initial_state transition_function keep (enter self)
    = (Ok best_states, st') →
  ∃ per_step,
    Forall2 (answers transition_function) (st_calls st') per_step ∧
    Forall (Forall checked) per_step.
Proof.
  intros Hs. apply search_run in Hs as (steps & active & fin & Hrun & Hc & _).
  exists (steps.*2). rewrite Hc.
  split; [by eapply run_answers | by eapply run_checked].
Qed.

(** X10.  Whatever the outcome, [search] leaves the beam sizes and the
    constraint map of the engine as they are, and neither gives a log to an
    engine without one nor takes the log of an engine that has one. *)
Theorem search_changes_the_log_only
    self num_steps initial_state transition_function keep r self' :
  search_call self num_steps initial_state transition_function keep = (r, self') →
  same_config self self' ∧ (is_Some (beams self') ↔ is_Some (beams self)).
Proof.
  unfold search_call. intros [= _ <-]. split; [done |].
  apply (keeps_search self _ _ _ _ (enter self)).
Qed.
End more_returned.

(** X13.  Constraining an engine that is itself the result of
    [constrained_to] gives what constraining the first engine gives: the new
    constraint replaces the old one and the beam sizes are passed on. *)
Theorem constrained_to_twice
    self sequence keep_beam_details new sequence' keep_beam_details' :
  constrained_to self sequence keep_beam_details = Ok new →
  constrained_to new sequence' keep_beam_details'
  = constrained_to self sequence' keep_beam_details'.
Proof.
  unfold constrained_to. rewrite !__init___Ok. intros [= <-]. simpl.
  do 2 f_equal. unfold or_default. repeat case_decide; congruence.
Qed.

(** ** The active list from step to step *)

Section survivors.
Context {StateType : Type} `{StateOps : State StateType}.
Implicit Types (state : StateType) (self : BeamSearch) (st : store StateType)
  (candidates states : list StateType) (finished_states : ddict StateType)
  (transition_function : TransitionFunction StateType).

Lemma concat_elem_of {A} (x : A) (ls : list (list A)) :
  x ∈ concat ls → ∃ l, x ∈ l ∧ l ∈ ls.
Proof.
  induction ls as [|l ls IH]; simpl; intros Hx; [by apply elem_of_nil in Hx |].
  apply elem_of_app in Hx as [Hx | Hx].
  - exists l. split; [done | by left].
  - destruct (IH Hx) as (l' & ? & ?). exists l'. split; [done | by right].
Qed.

Lemma survivors_elem_of self candidates state :
  state ∈ survivors self candidates → state ∈ unfinished candidates.
Proof.
  unfold survivors, by_batch. intros Hs.
  apply concat_elem_of in Hs as (l & Hs & Hl).
  apply list_elem_of_fmap in Hl as (g & -> & Hg).
  apply list_elem_of_fmap in Hg as (k & -> & _).
  destruct (py_slice_to_take (filter (λ s, batch_index0 s = k) (unfinished candidates))
              (_beam_size self)) as [n Hn].
  rewrite Hn in Hs. apply (subseteq_take n) in Hs.
  by apply list_elem_of_filter in Hs as [_ ?].
Qed.

Lemma survivors_unfinished self candidates :
  Forall (λ state, is_finished state = Ok false) (survivors self candidates).
Proof.
  apply Forall_forall. intros s Hs. apply survivors_elem_of in Hs.
  by apply list_elem_of_filter in Hs as [? _].
Qed.

Lemma survivors_nil self candidates :
  0 < _beam_size self → survivors self candidates = [] → unfinished candidates = [].
Proof.
  intros Hk. unfold survivors, by_batch.
  destruct (unfinished candidates) as [|x l]; [done |]. csimpl.
  rewrite filter_cons_True by done.
  rewrite py_slice_to_nonneg by lia.
  replace (Z.to_nat (_beam_size self)) with (S (Z.to_nat (_beam_size self - 1))) by lia.
  done.
Qed.

Lemma survivors_zero self candidates : _beam_size self = 0 → survivors self candidates = [].
Proof.
  intros Hk. unfold survivors. rewrite Hk.
  induction (by_batch (unfinished candidates)) as [|g gs IH]; [done |].
  csimpl. by rewrite IH.
Qed.

Lemma filter_all {A} (P : A → Prop) `{∀ x, Decision (P x)} (l : list A) :
  Forall P l → filter P l = l.
Proof.
  induction 1 as [|x l Hx _ IH]; [done |]. by rewrite filter_cons_True, IH.
Qed.

Lemma filter_nothing {A} (P : A → Prop) `{∀ x, Decision (P x)} (l : list A) :
  Forall (λ x, ¬ P x) l → filter P l = [].
Proof.
  induction 1 as [|x l Hx _ IH]; [done |]. by rewrite filter_cons_False, IH.
Qed.

(** the states of one batch index among the survivors *)
Lemma survivors_filter self candidates (b : Z) :
  0 ≤ _beam_size self →
  filter (λ state, batch_index0 state = Some b) (survivors self candidates)
  = take (Z.to_nat (_beam_size self))
      (filter (λ state, batch_index0 state = Some b) (unfinished candidates)).
Proof.
  intros Hk. unfold survivors, by_batch.
  set (u := unfinished candidates). set (n := Z.to_nat (_beam_size self)).
  assert (Hgen : ∀ ks : list (option Z), NoDup ks →
    filter (λ state, batch_index0 state = Some b)
      (concat ((λ l, py_slice_to l (_beam_size self))
                 <$> ((λ k, filter (λ state, batch_index0 state = k) u) <$> ks)))
    = if decide (Some b ∈ ks)
      then take n (filter (λ state, batch_index0 state = Some b) u) else []).
  { induction ks as [|k ks IH]; intros Hnd.
    - rewrite decide_False; [done | apply not_elem_of_nil].
    - apply NoDup_cons in Hnd as [Hk' Hnd]. csimpl.
      rewrite filter_app, (IH Hnd), py_slice_to_nonneg by done. fold n.
      destruct (decide (k = Some b)) as [-> | Hne].
      + rewrite (decide_False (P:=Some b ∈ ks)) by done.
        rewrite decide_True by by left.
        rewrite app_nil_r. apply filter_all.
        apply Forall_forall. intros s Hs. apply (subseteq_take n) in Hs.
        by apply list_elem_of_filter in Hs as [? _].
      + rewrite filter_nothing.
        * simpl. destruct (decide (Some b ∈ ks)) as [Hin | Hnin].
          -- by rewrite decide_True by by right.
          -- rewrite decide_False; [done |]. rewrite elem_of_cons.
             intros [Heq | Hin]; [by apply Hne | done].
        * apply Forall_forall. intros s Hs. apply (subseteq_take n) in Hs.
          apply list_elem_of_filter in Hs as [Hs _]. congruence. }
  rewrite (Hgen _ (NoDup_first_seen _)).
  case_decide as Hin; [done |].
  rewrite filter_nothing; [by rewrite take_nil |].
  apply Forall_forall. intros s Hs Hb. apply Hin.
  apply elem_of_first_seen, list_elem_of_fmap. by exists s.
Qed.

(** X7.  After a step that completes, every state of the active list is a
    candidate of the step that is not finished, and on a beam size that is
    not negative the active states of any one batch index are the first
    [beam_size] unfinished candidates of that batch index: no batch index
    has more than [beam_size] active states. *)
Theorem search_step_beam_per_batch_index
    self num_steps transition_function keep step_num
    states finished_states st states' finished_states' st' :
  0 ≤ _beam_size self →
  search_step self num_steps transition_function keep step_num states finished_states st
    = (Ok (states', finished_states'), st') →
  ∃ allowed candidates,
    take_step transition_function (combine_states states) (_per_node_beam_size self) allowed
      = Ok candidates ∧
    Forall (λ state, state ∈ candidates ∧ is_finished state = Ok false) states' ∧
    ∀ b,
      filter (λ state, batch_index0 state = Some b) states'
      = take (Z.to_nat (_beam_size self))
          (filter (λ state, batch_index0 state = Some b) (unfinished candidates)) ∧
      (length (filter (λ state, batch_index0 state = Some b) states')
       ≤ Z.to_nat (_beam_size self))%nat.
Proof.
  intros Hk Hs.
  apply search_step_checked in Hs as (allowed & candidates & _ & Htake & _ & _ & -> & _).
  exists allowed, candidates. split; [done |]. split.
  - apply Forall_forall. intros s Hs. apply survivors_elem_of in Hs.
    by apply list_elem_of_filter in Hs as [? ?].
  - intros b. rewrite survivors_filter by done. split; [done |].
    rewrite length_take. lia.
Qed.

Lemma run_last self transition_function states steps states' :
  run self transition_function states steps states' →
  match last steps with
  | Some cs => states' = survivors self cs.2
  | None => states' = states
  end.
Proof.
  induction 1 as [|states allowed candidates steps states' _ _ _ _ Hrun IH]; [done |].
  rewrite last_cons. destruct (last steps) as [cs|] eqn:Hlast; [done |].
  apply last_None in Hlast. subst steps. by inversion Hrun.
Qed.

Lemma run_chain self transition_function states steps states' :
  run self transition_function states steps states' →
  (∀ cs, steps !! 0%nat = Some cs → call_state cs.1 = combine_states states) ∧
  (∀ i cs cs', steps !! i = Some cs → steps !! S i = Some cs' →
               call_state cs'.1 = combine_states (survivors self cs.2)).
Proof.
  induction 1 as [|states allowed candidates steps states' _ _ _ _ Hrun [IH0 IH]].
  - split; intros; done.
  - split.
    + by intros cs [= <-].
    + intros [|i] cs cs' Hi Hi'; simpl in *.
      * injection Hi as <-. by apply IH0.
      * by eapply IH.
Qed.

(** X9.  In a search that completes its loop, the first call to the
    transition function is on the initial state alone, every later call is
    on the combination of the survivors of the step before it, and the
    active list at the end of the loop is the survivors of the last step. *)
Theorem search_expands_the_survivors
    self num_steps initial_state transition_function keep active finished_states st' :
  search_steps self num_steps initial_state transition_function keep (enter self)
    = (Ok (active, finished_states), st') →
  ∃ per_step,
    Forall2 (answers transition_function) (st_calls st') per_step ∧
    (∀ c, st_calls st' !! 0%nat = Some c → call_state c = combine_states [initial_state]) ∧
    (∀ i candidates c,
        per_step !! i = Some candidates → st_calls st' !! S i = Some c →
        call_state c = combine_states (survivors self candidates)) ∧
    active = match last per_step with
             | Some candidates => survivors self candidates
             | None => [initial_state]
             end.
Proof.
  intros Hs. apply search_steps_run in Hs as (steps & Hrun & Hc & _).
  exists (steps.*2). rewrite Hc.
  destruct (run_chain _ _ _ _ _ Hrun) as [Hfirst Hnext].
  split; [by eapply run_answers |]. split; [|split].
  - intros c Hl. apply list_lookup_fmap_Some in Hl as (cs & -> & Hcs). by apply Hfirst.
  - intros i candidates c Hi Hi'.
    apply list_lookup_fmap_Some in Hi as (cs & -> & Hcs).
    apply list_lookup_fmap_Some in Hi' as (cs' & -> & Hcs').
    by eapply Hnext.
  - pose proof (run_last _ _ _ _ _ Hrun) as Hlast.
    rewrite fmap_last. by destruct (last steps).
Qed.

(** X6.  On a positive beam size, a search that completes its loop has
    either made [num_steps] calls (none when [num_steps <= 0]) or stopped
    with no active state after a call whose candidates were all finished. *)
Theorem search_stops_early_only_when_done
    self num_steps initial_state transition_function keep active finished_states st' :
  0 < _beam_size self →
  search_steps self num_steps initial_state transition_function keep (enter self)
    = (Ok (active, finished_states), st') →
  length (st_calls st') = Z.to_nat num_steps ∨
  (active = [] ∧
   ∃ c candidates, last (st_calls st') = Some c ∧
                   answers transition_function c candidates ∧
                   unfinished candidates = []).
Proof.
  intros Hk Hs. apply search_steps_run in Hs as (steps & Hrun & Hc & _ & Hend & _).
  rewrite Hc, length_fmap. destruct Hend as [Hlen | ->]; [by left |]. right.
  split; [done |].
  pose proof (run_last _ _ _ _ _ Hrun) as Hlast.
  pose proof (run_each _ _ _ _ _ Hrun) as Heach.
  destruct (last steps) as [[c candidates]|] eqn:Hl; [|done].
  exists c, candidates. rewrite fmap_last, Hl. split; [done |].
  rewrite Forall_forall in Heach. apply last_Some_elem_of in Hl.
  destruct (Heach _ Hl) as [Hans _]. split; [done |].
  by apply (survivors_nil self).
Qed.

(** X14.  On a beam size of [0], a search that returns has called the
    transition function at most once, and every list of the mapping it
    returns is empty. *)
Theorem search_beam_size_zero
    self num_steps initial_state transition_function keep best_states st' :
  _beam_size self = 0 →
  search self num_steps initial_state transition_function keep (enter self)
    = (Ok best_states, st') →
  (length (st_calls st') ≤ 1)%nat ∧ Forall (λ b, b.2 = []) best_states.
Proof.
  intros Hk Hs.
  apply search_run in Hs as (steps & active & fin & Hrun & Hc & _ & _ & _ & Hrank).
  split.
  - rewrite Hc, length_fmap.
    inversion Hrun as [|? ? ? ? ? _ _ _ _ Hrest]; subst; [simpl; lia |].
    rewrite survivors_zero in Hrest by done.
    inversion Hrest; subst; [simpl; lia | done].
  - apply rank_Ok in Hrank.
    induction Hrank as [|f b fs bs [_ Hb] _ IH]; constructor; [|done].
    apply rank_batch_split in Hb as (dropped & _ & _ & Hlen & _).
    rewrite Hk in Hlen. specialize (Hlen ltac:(lia)).
    by apply nil_length_inv.
Qed.
End survivors.

(** ** The candidates of the last step *)

Section last_step.
Context {StateType : Type} `{StateOps : State StateType}.
Implicit Types (state : StateType) (self : BeamSearch) (st : store StateType)
  (candidates states : list StateType) (finished_states : ddict StateType)
  (transition_function : TransitionFunction StateType).

Lemma dd_get_fmap {A} (g : Z → list A) (ks : list Z) (b : Z) :
  dd_get b ((λ k, (k, g k)) <$> ks) = if decide (b ∈ ks) then Some (g b) else None.
Proof.
  induction ks as [|k ks IH].
  - destruct (decide (b ∈ [])) as [Hin | Hnin]; [by apply elem_of_nil in Hin | done].
  - rewrite fmap_cons. cbn [dd_get]. rewrite IH.
    destruct (decide (b = k)) as [-> | Hne].
    + destruct (decide (k ∈ k :: ks)) as [Hin | Hnin]; [done |].
      destruct Hnin. apply list_elem_of_here.
    + destruct (decide (b ∈ ks)) as [Hin | Hnin];
        destruct (decide (b ∈ k :: ks)) as [Hin' | Hnin']; try done.
      * destruct Hnin'. by apply list_elem_of_further.
      * apply elem_of_cons in Hin' as [? | ?]; done.
Qed.

Lemma dd_get_app_Some {A} (d d' : ddict A) (b : Z) (l : list A) :
  dd_get b d = Some l → dd_get b (d ++ d') = Some l.
Proof.
  induction d as [|[k l'] d IH]; simpl; [done |]. case_decide; auto.
Qed.

Lemma dd_get_touch_Some {A} (d : ddict A) (k b : Z) (l : list A) :
  dd_get b d = Some l → dd_get b (dd_touch k d) = Some l.
Proof.
  intros Hb. unfold dd_touch. destruct (dd_get k d); [done |].
  by apply dd_get_app_Some.
Qed.

Lemma rank_dd_get self finished_states best_states (b : Z) (l : list StateType) :
  rank self finished_states = Ok best_states →
  dd_get b finished_states = Some l →
  ∃ l', dd_get b best_states = Some l' ∧ rank_batch self l = Ok l'.
Proof.
  intros Hr. apply rank_Ok in Hr.
  induction Hr as [|[kf lf] [kb lb] fs bs [Hk Hb] _ IH]; simpl in *; [done |].
  subst kb. case_decide; [|done]. intros [= ->]. eauto.
Qed.

(** X15.  With [keep_final_unfinished_states=True] and a positive beam
    size, when the search takes its step number [num_steps] and returns,
    every batch index that has a candidate at that step, finished or not,
    has a list in the returned mapping, and the list is not empty. *)
Theorem search_keeps_the_last_candidates
    self num_steps initial_state transition_function best_states st'
    c candidates state (b : Z) :
  0 < _beam_size self →
  search self num_steps initial_state transition_function true (enter self)
    = (Ok best_states, st') →
  st_calls st' !! (Z.to_nat num_steps - 1)%nat = Some c →
  answers transition_function c candidates →
  state ∈ candidates →
  batch_index0 state = Some b →
  ∃ l, dd_get b best_states = Some l ∧ l ≠ [].
Proof.
  intros Hk Hs Hc Hans Hin Hb.
  apply search_run in Hs as (steps & active & fin & Hrun & Hcalls & Hlen & _ & -> & Hrank).
  rewrite Hcalls in Hc. apply list_lookup_fmap_Some in Hc as ([c' cands] & -> & Hstep).
  pose proof (lookup_lt_Some _ _ _ Hstep) as Hlt.
  pose proof (run_each _ _ _ _ _ Hrun) as Heach. rewrite Forall_forall in Heach.
  destruct (Heach _ (list_elem_of_lookup_2 _ _ _ Hstep)) as [Hans' _].
  unfold answers in *. simpl in *. rewrite Hans in Hans'. injection Hans' as <-.
  set (all := retained_over num_steps true 1 (steps.*2)) in *.
  assert (Hall : state ∈ all).
  { apply (retained_over_lookup _ _ _ _ (Z.to_nat num_steps - 1) candidates).
    - by rewrite list_lookup_fmap, Hstep.
    - rewrite bool_decide_eq_true_2 by lia. done. }
  assert (Hkey : key state = b) by (unfold key; by rewrite Hb).
  assert (Hget : dd_get b (dd_extend [] (tag <$> all))
                 = Some (filter (λ s, key s = b) all)).
  { rewrite dd_extend_tag, dd_get_fmap. rewrite decide_True; [done |].
    apply elem_of_first_seen, list_elem_of_fmap. by exists state. }
  assert (Hget' : dd_get b (if beams self is Some _
                            then dd_touch 0 (dd_extend [] (tag <$> all))
                            else dd_extend [] (tag <$> all))
                  = Some (filter (λ s, key s = b) all)).
  { destruct (beams self); [by apply dd_get_touch_Some | done]. }
  destruct (rank_dd_get _ _ _ _ _ Hrank Hget') as (l' & Hl' & Hrb).
  exists l'. split; [done |].
  apply rank_batch_split in Hrb as (dropped & _ & _ & Hlen' & _).
  specialize (Hlen' ltac:(lia)). intros ->.
  assert (Hne : (0 < length (filter (λ s, key s = b) all))%nat).
  { assert (Hs : state ∈ filter (λ s, key s = b) all) by by apply list_elem_of_filter.
    destruct (filter (λ s, key s = b) all); [by apply elem_of_nil in Hs | simpl; lia]. }
  simpl in Hlen'. lia.
Qed.
End last_step.

(** ** The back-fill of the log *)

Section backfill.
Context {StateType : Type} `{StateOps : State StateType}.
Implicit Types (state : StateType) (self : BeamSearch) (st : store StateType)
  (log : beam_log) (finished_states : ddict StateType).

Lemma grows_refl log : grows log log.
Proof. intros i entry Hi. by exists entry. Qed.

Lemma grows_trans log1 log2 log3 : grows log1 log2 → grows log2 log3 → grows log1 log3.
Proof.
  intros H12 H23 i entry Hi.
  destruct (H12 _ _ Hi) as (e2 & H2 & Hp2). destruct (H23 _ _ H2) as (e3 & H3 & Hp3).
  exists e3. split; [done | by etrans].
Qed.

Lemma grows_pad log (n : nat) : grows log (log ++ replicate n []).
Proof.
  intros i entry Hi. exists entry. split; [|done].
  by apply lookup_app_l_Some.
Qed.

Lemma grows_insert log (j : nat) (row : list (pyfloat * list Z))
    (pair : pyfloat * list Z) :
  log !! j = Some row → grows log (<[j := row ++ [pair]]> log).
Proof.
  intros Hj i entry Hi. destruct (decide (i = j)) as [-> | Hne].
  - exists (row ++ [pair]).
    split; [apply list_lookup_insert_eq; by eapply lookup_lt_Some |].
    rewrite Hj in Hi. injection Hi as <-. by exists [pair].
  - exists entry. split; [|done].
    etrans; [apply list_lookup_insert_ne; congruence | done].
Qed.

Lemma placed_grows log log' pair : placed log pair → grows log log' → placed log' pair.
Proof.
  unfold placed. intros Hp Hg. destruct pair.2 as [|a h].
  - destruct Hp as (entry & Hin & Hpair).
    apply list_elem_of_lookup in Hin as [i Hi].
    destruct (Hg _ _ Hi) as (entry' & Hi' & [k ->]).
    exists (entry ++ k). split; [by eapply list_elem_of_lookup_2 |].
    apply elem_of_app. by left.
  - destruct Hp as (entry & Hi & Hpair).
    destruct (Hg _ _ Hi) as (entry' & Hi' & [k ->]).
    exists (entry ++ k). split; [done |]. apply elem_of_app. by left.
Qed.

Lemma pairs_pad log (n : nat) : pairs (log ++ replicate n []) = pairs log.
Proof.
  unfold pairs. rewrite fmap_app, sum_list_with_app.
  assert (Hz : sum_list (length <$> replicate n (@nil (pyfloat * list Z))) = 0%nat).
  { induction n as [|n IH]; [done |]. simpl. done. }
  rewrite Hz. lia.
Qed.

Lemma pairs_insert log (j : nat) (row : list (pyfloat * list Z))
    (pair : pyfloat * list Z) :
  log !! j = Some row → pairs (<[j := row ++ [pair]]> log) = S (pairs log).
Proof.
  unfold pairs. revert j. induction log as [|e log IH]; intros j Hj; [done |].
  destruct j as [|j]; csimpl in *.
  - injection Hj as ->. rewrite length_app. simpl. lia.
  - etrans; [apply (f_equal (Nat.add (length e)) (IH _ Hj)) | lia].
Qed.

Lemma py_index_lookup {A} (l : list A) (i : Z) (x : A) :
  py_index l i = Ok x →
  l !! Z.to_nat (if i <? 0 then i + Z.of_nat (length l) else i) = Some x.
Proof.
  unfold py_index. simpl. destruct (_ && _); [|done].
  destruct (l !! _) as [y|]; [by intros [= ->] | done].
Qed.

Lemma py_append_at_Ok log (i : Z) (pair : pyfloat * list Z) log' :
  py_append_at log i pair = Ok log' →
  ∃ row, log !! Z.to_nat (if i <? 0 then i + Z.of_nat (length log) else i) = Some row ∧
         log' = <[Z.to_nat (if i <? 0 then i + Z.of_nat (length log) else i)
                  := row ++ [pair]]> log.
Proof.
  unfold py_append_at. intros Ha. inv_obind Ha. injection Ha as <-.
  apply py_index_lookup in Ha0. eauto.
Qed.

(** The back-fill of one state, when it succeeds. *)
Lemma backfill_state_Ok log state log' :
  backfill_state log state = Ok log' →
  ∃ pair, beam_pair state = Ok pair ∧
          grows log log' ∧ pairs log' = S (pairs log) ∧ placed log' pair.
Proof.
  unfold backfill_state, beam_pair. intros Hb.
  inv_obind Hb. inv_obind Hb. rewrite Ha, Ha0. simpl.
  exists (a, a0). split; [done |].
  apply py_append_at_Ok in Hb as (row & Hrow & ->).
  set (padded := log ++ replicate (length a0 - length log) []) in *.
  set (j := Z.to_nat _) in *.
  split; [|split].
  - eapply grows_trans; [apply grows_pad | by apply grows_insert].
  - rewrite (pairs_insert _ _ _ _ Hrow). unfold padded. by rewrite pairs_pad.
  - unfold placed. simpl.
    assert (Hj : <[j := row ++ [(a, a0)]]> padded !! j = Some (row ++ [(a, a0)])).
    { apply list_lookup_insert_eq. by eapply lookup_lt_Some. }
    destruct a0 as [|x h].
    + exists (row ++ [(a, [])]). split; [by eapply list_elem_of_lookup_2 |].
      apply elem_of_app. right. by left.
    + exists (row ++ [(a, x :: h)]). split.
      * replace (length (x :: h) - 1)%nat with j; [done |].
        unfold j. simpl length.
        destruct (Z.ltb_spec (Z.of_nat (S (length h)) - 1) 0); lia.
      * apply elem_of_app. right. by left.
Qed.

Lemma backfill_states_Ok log (states : list StateType) log' :
  backfill_states log states = (Ok tt, log') →
  grows log log' ∧
  pairs log' = (pairs log + length states)%nat ∧
  Forall (λ state, ∃ pair, beam_pair state = Ok pair ∧ placed log' pair) states.
Proof.
  revert log. induction states as [|s states IH]; intros log Hb; simpl in Hb.
  - injection Hb as <-. split; [apply grows_refl |]. split; [simpl; lia | done].
  - destruct (backfill_state log s) as [log1|e] eqn:Hs; [|done].
    apply backfill_state_Ok in Hs as (pair & Hpair & Hg & Hp & Hpl).
    apply IH in Hb as (Hg' & Hp' & Hall).
    split; [by eapply grows_trans |]. split; [simpl; lia |].
    constructor; [|done]. exists pair. split; [done | by eapply placed_grows].
Qed.

(** X12.  When the log is kept and the back-fill succeeds, every state of
    batch index [0] of the accumulator has its [(score, action_history)]
    pair in the log, in the entry at the depth of its history (in some entry
    when the history is empty); the entries that the loop has written are
    still there, each at its index and at the front of its entry; and the
    back-fill adds one pair for each such state and no other pair. *)
Theorem search_backfills_batch_0
    self num_steps initial_state transition_function keep
    active finished_states0 st1 finished_states st' log :
  search_steps self num_steps initial_state transition_function keep (enter self)
    = (Ok (active, finished_states0), st1) →
  search_finished self num_steps initial_state transition_function keep (enter self)
    = (Ok finished_states, st') →
  st_beams st1 = Some log →
  ∃ log',
    st_beams st' = Some log' ∧
    grows log log' ∧
    pairs log' = (pairs log + length (default [] (dd_get 0 finished_states0)))%nat ∧
    Forall (λ state, ∃ pair, beam_pair state = Ok pair ∧ placed log' pair)
           (default [] (dd_get 0 finished_states0)).
Proof.
  intros Hsteps Hfin Hlog. unfold search_finished, bind in Hfin.
  rewrite Hsteps in Hfin. simpl in Hfin. unfold backfill in Hfin. rewrite Hlog in Hfin.
  destruct (dd_get 0 finished_states0) as [l|] eqn:Hget.
  - assert (Ht : dd_touch 0 finished_states0 = finished_states0)
      by (unfold dd_touch; by rewrite Hget).
    rewrite Ht, Hget in Hfin. simpl in *.
    destruct (backfill_states log l) as [[[]|e] log'] eqn:Hb; [|done].
    injection Hfin as <- <-. exists log'. split; [done |].
    by apply backfill_states_Ok in Hb.
  - assert (Ht : dd_get 0 (dd_touch 0 finished_states0) = Some []).
    { unfold dd_touch. rewrite Hget. by apply dd_get_app_None. }
    rewrite Ht in Hfin. simpl in *. injection Hfin as <- <-.
    exists log. split; [done |]. split; [apply grows_refl |]. split; [lia | done].
Qed.

(** X11.  The back-fill of one state with score [s] and history [h]: when
    [h] is not empty it never raises; when [h] is empty the pair goes to
    the end of the last entry of the log, and on an empty log the index
    [-1] raises [IndexError]. *)
Theorem backfill_state_empty_history log state (s : pyfloat) (h : list Z) :
  beam_pair state = Ok (s, h) →
  (h ≠ [] → ∃ log', backfill_state log state = Ok log') ∧
  (h = [] → log = [] → backfill_state log state = Raise IndexError) ∧
  (h = [] → ∀ front entry, log = front ++ [entry] →
            backfill_state log state = Ok (front ++ [entry ++ [(s, h)]])).
Proof.
  unfold beam_pair, backfill_state. intros Hp.
  inv_obind Hp. inv_obind Hp. injection Hp as <- <-. rewrite Ha, Ha0. simpl.
  split; [|split].
  - intros Hne. unfold py_append_at, py_index.
    set (padded := log ++ replicate (length a0 - length log) []).
    assert (Hlen : (length a0 ≤ length padded)%nat).
    { unfold padded. rewrite length_app, length_replicate. lia. }
    assert (Hpos : (0 < length a0)%nat) by (destruct a0; [done | simpl; lia]).
    destruct (Z.ltb_spec (Z.of_nat (length a0) - 1) 0); [lia |].
    rewrite (proj2 (Z.leb_le _ _)) by lia.
    rewrite (proj2 (Z.ltb_lt _ _)) by lia. simpl.
    destruct (padded !! Z.to_nat (Z.of_nat (length a0) - 1)) as [row|] eqn:Hrow.
    + simpl. eauto.
    + apply lookup_ge_None in Hrow. lia.
  - intros -> ->. done.
  - intros -> front entry ->. simpl. rewrite app_nil_r.
    unfold py_append_at, py_index. rewrite length_app. simpl.
    rewrite (proj2 (Z.leb_le _ _)) by lia.
    rewrite (proj2 (Z.ltb_lt _ _)) by lia. simpl.
    replace (Z.to_nat (Z.of_nat 0 - 1 + Z.of_nat (length front + 1)))
      with (length front) by lia.
    rewrite list_lookup_middle by done. simpl.
    rewrite (insert_app_r_alt front [entry] (length front)) by lia.
    by rewrite Nat.sub_diag.
Qed.
End backfill.

(** ** Unfinished states, and a transition function that raises *)

Section unfinished_and_failure.
Context {StateType : Type} `{StateOps : State StateType}.
Implicit Types (state : StateType) (self : BeamSearch) (st : store StateType)
  (candidates states : list StateType) (finished_states : ddict StateType)
  (transition_function : TransitionFunction StateType).

Lemma retained_over_index num_steps keep step_num (per_step : list (list StateType)) state :
  state ∈ retained_over num_steps keep step_num per_step →
  ∃ (i : nat) candidates,
    per_step !! i = Some candidates ∧
    state ∈ retained (bool_decide (step_num + Z.of_nat i = num_steps) && keep) candidates.
Proof.
  revert step_num. induction per_step as [|cs per_step IH]; intros step_num Hin; simpl in Hin.
  - by apply elem_of_nil in Hin.
  - apply elem_of_app in Hin as [Hin | Hin].
    + exists 0%nat, cs. split; [done |]. by rewrite Z.add_0_r.
    + apply IH in Hin as (i & candidates & Hi & Hin).
      exists (S i), candidates. split; [done |].
      by replace (step_num + Z.of_nat (S i)) with (step_num + 1 + Z.of_nat i) by lia.
Qed.

(** X16.  A state of the returned mapping that is not finished is a
    candidate of the step number [num_steps], and the search was called with
    [keep_final_unfinished_states=True]: the steps before the last one give
    finished states only. *)
Theorem search_unfinished_from_last_step
    self num_steps initial_state transition_function keep best_states st'
    (b : Z) (l : list StateType) state :
  search self num_steps initial_state transition_function keep (enter self)
    = (Ok best_states, st') →
  (b, l) ∈ best_states → state ∈ l →
  is_finished state = Ok false →
  keep = true ∧ 0 < num_steps ∧
  ∃ c candidates,
    st_calls st' !! (Z.to_nat num_steps - 1)%nat = Some c ∧
    answers transition_function c candidates ∧
    state ∈ candidates.
Proof.
  intros Hs Hb Hin Hunf.
  destruct (search_returned _ _ _ _ _ _ _ _ _ _ Hs Hb Hin)
    as (steps & active & Hrun & Hcalls & Hret & _).
  apply retained_over_index in Hret as (i & candidates & Hi & Hret).
  apply retained_elem_of in Hret as [Hcand [Hfin | Hflag]]; [congruence |].
  apply andb_true_iff in Hflag as [Hlast ->]. apply bool_decide_eq_true_1 in Hlast.
  split; [done |]. split; [lia |].
  apply list_lookup_fmap_Some in Hi as ([c cands] & Hcs & Hi). simpl in Hcs. subst cands.
  exists c, candidates. replace (Z.to_nat num_steps - 1)%nat with i by lia.
  split; [by rewrite Hcalls, list_lookup_fmap, Hi |]. split; [|done].
  pose proof (run_each _ _ _ _ _ Hrun) as Heach. rewrite Forall_forall in Heach.
  by destruct (Heach _ (list_elem_of_lookup_2 _ _ _ Hi)) as [Hans _].
Qed.

(** X17.  Nothing is caught: when [num_steps] is positive and the first
    call to the transition function raises, [search] raises the same
    exception after that one call, and a log that is kept is left empty. *)
Theorem search_raises_what_take_step_raises
    self num_steps initial_state transition_function keep allowed e :
  0 < num_steps →
  allowed_actions_for self (combine_states [initial_state]) = Ok allowed →
  take_step transition_function (combine_states [initial_state])
    (_per_node_beam_size self) allowed = Raise e →
  search self num_steps initial_state transition_function keep (enter self)
  = (Raise e,
     {| st_beams := (λ _, []) <$> beams self;
        st_calls := [{| call_state := combine_states [initial_state];
                        call_max_actions := _per_node_beam_size self;
                        call_allowed_actions := allowed |}] |}).
Proof.
  intros Hn Ha Ht.
  unfold search, search_finished, search_steps, bind, clear_beams, enter. simpl.
  destruct (Z.to_nat num_steps) as [|remaining] eqn:Hr; [lia |].
  simpl. unfold search_step, bind, lift, call_take_step. rewrite Ha. simpl.
  by rewrite Ht.
Qed.

(** X18.  On an engine with a constraint map that is not empty, the
    restriction is looked up under [action_history[0]] of the combined
    state: when that list is empty and [num_steps] is positive, [search]
    raises [IndexError] before any call to the transition function, and a
    log that is kept is left empty. *)
Theorem search_constraint_needs_a_history
    self num_steps initial_state transition_function keep allowed_transitions :
  0 < num_steps →
  _allowed_transitions self = Some allowed_transitions →
  allowed_transitions ≠ ∅ →
  action_history (combine_states [initial_state]) = [] →
  search self num_steps initial_state transition_function keep (enter self)
  = (Raise IndexError, {| st_beams := (λ _, []) <$> beams self; st_calls := [] |}).
Proof.
  intros Hn Hmap Hne Hh.
  unfold search, search_finished, search_steps, bind, clear_beams, enter. simpl.
  destruct (Z.to_nat num_steps) as [|remaining] eqn:Hr; [lia |].
  simpl. unfold search_step, bind, lift, allowed_actions_for.
  rewrite Hmap, decide_False, Hh by done. done.
Qed.
End unfinished_and_failure.

(** ** Runs of the further properties *)

Section further_examples.
Import Tree TreeRuns.

(** Two roots, three steps of [stopping]: three finished states for each
    batch index. *)
Lemma search_steps_accumulator_witness :
  search_steps (engine 2 false) 3 (root [0; 1]) stopping false (enter (engine 2 false))
    = (Ok (stopping_active, stopping_accumulator), stopping_store) ∧
  ∃ per_step,
    Forall2 (answers stopping) (st_calls stopping_store) per_step ∧
    Some <$> stopping_accumulator.*1
    = first_seen (batch_index0 <$> retained_over 3 false 1 per_step) ∧
    stopping_accumulator.*2 = by_batch (retained_over 3 false 1 per_step).
Proof.
  assert (H1 : search_steps (engine 2 false) 3 (root [0; 1]) stopping false
                 (enter (engine 2 false))
               = (Ok (stopping_active, stopping_accumulator), stopping_store))
    by (vm_compute; reflexivity).
  split; [exact H1 |].
  exact (search_steps_accumulator _ _ _ _ _ _ _ _ H1).
Defined.

Lemma search_returns_finished_only_witness :
  search_call (engine 2 false) 3 (root [0; 1]) stopping false
    = (Ok stopping_finished_best, stopping_finished_self) ∧
  Forall (λ b, Forall (λ state, is_finished state = Ok true) b.2) stopping_finished_best.
Proof.
  assert (H1 : search_call (engine 2 false) 3 (root [0; 1]) stopping false
               = (Ok stopping_finished_best, stopping_finished_self))
    by (vm_compute; reflexivity).
  split; [exact H1 |].
  exact (search_returns_finished_only _ _ _ _ _ _ H1).
Defined.

Lemma search_returns_candidates_witness :
  search (engine 2 true) 3 (root [0; 1]) stopping true (enter (engine 2 true))
    = (Ok stopping_search_best, stopping_search_store) ∧
  Forall (λ b, Forall (λ state,
                  batch_index0 state = Some b.1 ∧
                  ∃ c candidates, c ∈ st_calls stopping_search_store ∧
                                  answers stopping c candidates ∧
                                  state ∈ candidates) b.2) stopping_search_best.
Proof.
  assert (H1 : search (engine 2 true) 3 (root [0; 1]) stopping true (enter (engine 2 true))
               = (Ok stopping_search_best, stopping_search_store))
    by (vm_compute; reflexivity).
  split; [exact H1 |].
  exact (search_returns_candidates _ _ _ _ _ _ _ H1).
Defined.

(** The binary tree of depth 3: four states in the accumulator, all with
    a number for score; the beam keeps two. *)
Lemma search_keeps_the_best_witness :
  search_call (engine 2 true) 3 (root [0]) binary true = (Ok binary_best, binary_self) ∧
  ∃ finished_states,
    (search_finished (engine 2 true) 3 (root [0]) binary true (enter (engine 2 true))).1
      = Ok finished_states ∧
    Forall (λ f, Forall scored f.2) finished_states ∧
    Forall2 (λ f b,
               b.1 = f.1 ∧
               ∃ dropped,
                 b.2 ++ dropped ≡ₚ f.2 ∧
                 (Forall scored f.2 →
                  ∀ s s', s ∈ b.2 → s' ∈ dropped → score_ge s s') ∧
                 (0 ≤ _beam_size (engine 2 true) →
                  length b.2
                  = (Z.to_nat (_beam_size (engine 2 true)) `min` length f.2)%nat) ∧
                 (_beam_size (engine 2 true) < 0 →
                  length b.2
                  = (length f.2 - Z.to_nat (- _beam_size (engine 2 true)))%nat))
            finished_states binary_best.
Proof.
  assert (H1 : search_call (engine 2 true) 3 (root [0]) binary true
               = (Ok binary_best, binary_self)) by (vm_compute; reflexivity).
  split; [exact H1 |].
  destruct (search_keeps_the_best _ _ _ _ _ _ _ H1) as (fin & Hfin & Hall).
  exists fin. split; [exact Hfin |]. split; [|exact Hall].
  vm_compute in Hfin. injection Hfin as <-.
  repeat constructor; eexists; reflexivity.
Defined.

(** [halting] stops after two of three steps: the candidates of the second
    step are all finished. *)
Lemma search_stops_early_only_when_done_witness :
  0 < _beam_size (engine 2 true) ∧
  search_steps (engine 2 true) 3 (root [0]) halting true (enter (engine 2 true))
    = (Ok (halting_active, halting_accumulator), halting_store) ∧
  (length (st_calls halting_store) = Z.to_nat 3 ∨
   (halting_active = [] ∧
    ∃ c candidates, last (st_calls halting_store) = Some c ∧
                    answers halting c candidates ∧
                    unfinished candidates = [])).
Proof.
  assert (H1 : 0 < _beam_size (engine 2 true)) by (simpl; lia).
  assert (H2 : search_steps (engine 2 true) 3 (root [0]) halting true
                 (enter (engine 2 true))
               = (Ok (halting_active, halting_accumulator), halting_store))
    by (vm_compute; reflexivity).
  split; [exact H1 |]. split; [exact H2 |].
  exact (search_stops_early_only_when_done _ _ _ _ _ _ _ _ H1 H2).
Defined.

(** One step from two roots: two active states for each batch index. *)
Lemma search_step_beam_per_batch_index_witness :
  0 ≤ _beam_size (engine 2 false) ∧
  search_step (engine 2 false) 3 binary true 1 [root [0; 1]] [] (enter (engine 2 false))
    = (Ok ((value ([], []) first_step.1).1, (value ([], []) first_step.1).2),
       first_step.2) ∧
  ∃ allowed candidates,
    take_step binary (combine_states [root [0; 1]]) (_per_node_beam_size (engine 2 false))
      allowed = Ok candidates ∧
    Forall (λ state, state ∈ candidates ∧ is_finished state = Ok false)
           (value ([], []) first_step.1).1 ∧
    ∀ b,
      filter (λ state, batch_index0 state = Some b) (value ([], []) first_step.1).1
      = take (Z.to_nat (_beam_size (engine 2 false)))
          (filter (λ state, batch_index0 state = Some b) (unfinished candidates)) ∧
      (length (filter (λ state, batch_index0 state = Some b)
                 (value ([], []) first_step.1).1)
       ≤ Z.to_nat (_beam_size (engine 2 false)))%nat.
Proof.
  assert (H1 : 0 ≤ _beam_size (engine 2 false)) by (simpl; lia).
  assert (H2 : search_step (engine 2 false) 3 binary true 1 [root [0; 1]] []
                 (enter (engine 2 false))
               = (Ok ((value ([], []) first_step.1).1, (value ([], []) first_step.1).2),
                  first_step.2)) by (vm_compute; reflexivity).
  split; [exact H1 |]. split; [exact H2 |].
  exact (search_step_beam_per_batch_index _ _ _ _ _ _ _ _ _ _ _ H1 H2).
Defined.

Lemma search_checks_every_candidate_witness :
  search (engine 2 true) 3 (root [0; 1]) stopping true (enter (engine 2 true))
    = (Ok stopping_search_best, stopping_search_store) ∧
  ∃ per_step,
    Forall2 (answers stopping) (st_calls stopping_search_store) per_step ∧
    Forall (Forall checked) per_step.
Proof.
  assert (H1 : search (engine 2 true) 3 (root [0; 1]) stopping true (enter (engine 2 true))
               = (Ok stopping_search_best, stopping_search_store))
    by (vm_compute; reflexivity).
  split; [exact H1 |].
  exact (search_checks_every_candidate _ _ _ _ _ _ _ H1).
Defined.

Lemma search_expands_the_survivors_witness :
  search_steps (engine 2 false) 3 (root [0; 1]) stopping false (enter (engine 2 false))
    = (Ok (stopping_active, stopping_accumulator), stopping_store) ∧
  ∃ per_step,
    Forall2 (answers stopping) (st_calls stopping_store) per_step ∧
    (∀ c, st_calls stopping_store !! 0%nat = Some c →
          call_state c = combine_states [root [0; 1]]) ∧
    (∀ i candidates c,
        per_step !! i = Some candidates → st_calls stopping_store !! S i = Some c →
        call_state c = combine_states (survivors (engine 2 false) candidates)) ∧
    stopping_active = match last per_step with
                      | Some candidates => survivors (engine 2 false) candidates
                      | None => [root [0; 1]]
                      end.
Proof.
  assert (H1 : search_steps (engine 2 false) 3 (root [0; 1]) stopping false
                 (enter (engine 2 false))
               = (Ok (stopping_active, stopping_accumulator), stopping_store))
    by (vm_compute; reflexivity).
  split; [exact H1 |].
  exact (search_expands_the_survivors _ _ _ _ _ _ _ _ H1).
Defined.

Lemma search_changes_the_log_only_witness :
  search_call (engine 2 true) 3 (root [0]) halting true = (Ok halting_best, halting_self) ∧
  same_config (engine 2 true) halting_self ∧
  (is_Some (beams halting_self) ↔ is_Some (beams (engine 2 true))).
Proof.
  assert (H1 : search_call (engine 2 true) 3 (root [0]) halting true
               = (Ok halting_best, halting_self)) by (vm_compute; reflexivity).
  split; [exact H1 |].
  exact (search_changes_the_log_only _ _ _ _ _ _ _ H1).
Defined.

(** A state without history, on an empty log: the index [-1]. *)
Lemma backfill_state_empty_history_witness :
  beam_pair (root [0]) = Ok (Num 0, []) ∧
  backfill_state [] (root [0]) = Raise IndexError ∧
  backfill_state [[(Num (-1), [0])]] (root [0]) = Ok [[(Num (-1), [0]); (Num 0, [])]].
Proof.
  assert (H1 : beam_pair (root [0]) = Ok (Num 0, [])) by reflexivity.
  split; [exact H1 |]. split.
  - destruct (backfill_state_empty_history [] (root [0]) (Num 0) [] H1) as (_ & Hraise & _).
    exact (Hraise eq_refl eq_refl).
  - destruct (backfill_state_empty_history [[(Num (-1), [0])]] (root [0]) (Num 0) [] H1)
      as (_ & _ & Hlast).
    exact (Hlast eq_refl [] [(Num (-1), [0])] eq_refl).
Defined.

(** [halting]: the loop logs one pair, the back-fill adds the two finished
    states. *)
Lemma search_backfills_batch_0_witness :
  search_steps (engine 2 true) 3 (root [0]) halting true (enter (engine 2 true))
    = (Ok (halting_active, halting_accumulator), halting_store) ∧
  search_finished (engine 2 true) 3 (root [0]) halting true (enter (engine 2 true))
    = (Ok halting_filled, halting_final_store) ∧
  st_beams halting_store = Some halting_log ∧
  ∃ log',
    st_beams halting_final_store = Some log' ∧
    grows halting_log log' ∧
    pairs log'
    = (pairs halting_log + length (default [] (dd_get 0 halting_accumulator)))%nat ∧
    Forall (λ state, ∃ pair, beam_pair state = Ok pair ∧ placed log' pair)
           (default [] (dd_get 0 halting_accumulator)).
Proof.
  assert (H1 : search_steps (engine 2 true) 3 (root [0]) halting true
                 (enter (engine 2 true))
               = (Ok (halting_active, halting_accumulator), halting_store))
    by (vm_compute; reflexivity).
  assert (H2 : search_finished (engine 2 true) 3 (root [0]) halting true
                 (enter (engine 2 true))
               = (Ok halting_filled, halting_final_store))
    by (vm_compute; reflexivity).
  assert (H3 : st_beams halting_store = Some halting_log) by reflexivity.
  split; [exact H1 |]. split; [exact H2 |]. split; [exact H3 |].
  exact (search_backfills_batch_0 _ _ _ _ _ _ _ _ _ _ _ H1 H2 H3).
Defined.

(** The sequence [0; 1] is replaced by [1]. *)
Lemma constrained_to_twice_witness :
  constrained_to (engine 2 false) [0; 1] None = Ok constrained ∧
  constrained_to constrained [1] (Some false)
  = constrained_to (engine 2 false) [1] (Some false).
Proof.
  assert (H1 : constrained_to (engine 2 false) [0; 1] None = Ok constrained)
    by exact (__init___Ok 2 (Some 2) (Some [0; 1]) true).
  split; [exact H1 |].
  exact (constrained_to_twice _ _ _ _ [1] (Some false) H1).
Defined.

(** A beam of [0] with two candidates per node: the finished candidate of
    the first step is found and dropped. *)
Lemma search_beam_size_zero_witness :
  _beam_size narrow = 0 ∧
  search narrow 3 (root [0]) stopping true (enter narrow) = (Ok zero_best, zero_store) ∧
  (length (st_calls zero_store) ≤ 1)%nat ∧ Forall (λ b, b.2 = []) zero_best.
Proof.
  assert (H1 : _beam_size narrow = 0) by reflexivity.
  assert (H2 : search narrow 3 (root [0]) stopping true (enter narrow)
               = (Ok zero_best, zero_store)) by (vm_compute; reflexivity).
  split; [exact H1 |]. split; [exact H2 |].
  exact (search_beam_size_zero _ _ _ _ _ _ _ H1 H2).
Defined.

(** The third step of the binary tree has unfinished candidates only. *)
Lemma search_keeps_the_last_candidates_witness :
  0 < _beam_size (engine 2 true) ∧
  search (engine 2 true) 3 (root [0]) binary true (enter (engine 2 true))
    = (Ok binary_search_best, binary_search_store) ∧
  st_calls binary_search_store !! (Z.to_nat 3 - 1)%nat = Some binary_third_call ∧
  answers binary binary_third_call binary_third_answer ∧
  binary_third_first ∈ binary_third_answer ∧
  batch_index0 binary_third_first = Some 0 ∧
  ∃ l, dd_get 0 binary_search_best = Some l ∧ l ≠ [].
Proof.
  assert (H1 : 0 < _beam_size (engine 2 true)) by (simpl; lia).
  assert (H2 : search (engine 2 true) 3 (root [0]) binary true (enter (engine 2 true))
               = (Ok binary_search_best, binary_search_store))
    by (vm_compute; reflexivity).
  assert (H3 : st_calls binary_search_store !! (Z.to_nat 3 - 1)%nat
               = Some binary_third_call) by reflexivity.
  assert (H4 : answers binary binary_third_call binary_third_answer)
    by (vm_compute; reflexivity).
  assert (H5 : binary_third_first ∈ binary_third_answer) by apply list_elem_of_here.
  assert (H6 : batch_index0 binary_third_first = Some 0) by reflexivity.
  split; [exact H1 |]. split; [exact H2 |]. split; [exact H3 |]. split; [exact H4 |].
  split; [exact H5 |]. split; [exact H6 |].
  exact (search_keeps_the_last_candidates _ _ _ _ _ _ _ _ _ _ H1 H2 H3 H4 H5 H6).
Defined.

(** The returned state [0; 0; 0] is not finished: it is a candidate of the
    third call. *)
Lemma search_unfinished_from_last_step_witness :
  search (engine 2 true) 3 (root [0]) binary true (enter (engine 2 true))
    = (Ok binary_search_best, binary_search_store) ∧
  (0, binary_first_list) ∈ binary_search_best ∧
  binary_first ∈ binary_first_list ∧
  is_finished binary_first = Ok false ∧
  true = true ∧ 0 < 3 ∧
  ∃ c candidates,
    st_calls binary_search_store !! (Z.to_nat 3 - 1)%nat = Some c ∧
    answers binary c candidates ∧
    binary_first ∈ candidates.
Proof.
  assert (H1 : search (engine 2 true) 3 (root [0]) binary true (enter (engine 2 true))
               = (Ok binary_search_best, binary_search_store))
    by (vm_compute; reflexivity).
  assert (H2 : (0, binary_first_list) ∈ binary_search_best) by apply list_elem_of_here.
  assert (H3 : binary_first ∈ binary_first_list) by apply list_elem_of_here.
  assert (H4 : is_finished binary_first = Ok false) by reflexivity.
  split; [exact H1 |]. split; [exact H2 |]. split; [exact H3 |]. split; [exact H4 |].
  exact (search_unfinished_from_last_step _ _ _ _ _ _ _ _ _ _ H1 H2 H3 H4).
Defined.

Lemma search_raises_what_take_step_raises_witness :
  0 < 3 ∧
  allowed_actions_for (engine 2 true) (combine_states [root [0]]) = Ok None ∧
  take_step broken (combine_states [root [0]]) (_per_node_beam_size (engine 2 true)) None
    = Raise RuntimeError ∧
  search (engine 2 true) 3 (root [0]) broken true (enter (engine 2 true))
  = (Raise RuntimeError,
     {| st_beams := (λ _, []) <$> beams (engine 2 true);
        st_calls := [{| call_state := combine_states [root [0]];
                        call_max_actions := _per_node_beam_size (engine 2 true);
                        call_allowed_actions := None |}] |}).
Proof.
  assert (H1 : 0 < 3) by lia.
  assert (H2 : allowed_actions_for (engine 2 true) (combine_states [root [0]]) = Ok None)
    by reflexivity.
  assert (H3 : take_step broken (combine_states [root [0]])
                 (_per_node_beam_size (engine 2 true)) None = Raise RuntimeError)
    by reflexivity.
  split; [exact H1 |]. split; [exact H2 |]. split; [exact H3 |].
  exact (search_raises_what_take_step_raises _ _ _ _ true _ _ H1 H2 H3).
Defined.

(** The engine [forced] on a state without members. *)
Lemma search_constraint_needs_a_history_witness :
  0 < 3 ∧
  _allowed_transitions forced = Some (prefix_tree [] [0; 1]) ∧
  prefix_tree [] [0; 1] ≠ ∅ ∧
  action_history (combine_states [root []]) = [] ∧
  search forced 3 (root []) binary true (enter forced)
  = (Raise IndexError, {| st_beams := (λ _, []) <$> beams forced; st_calls := [] |}).
Proof.
  assert (H1 : 0 < 3) by lia.
  assert (H2 : _allowed_transitions forced = Some (prefix_tree [] [0; 1])) by reflexivity.
  assert (H3 : prefix_tree [] [0; 1] ≠ ∅).
  { intros Hempty.
    assert (Hl : prefix_tree [] [0; 1] !! [] = Some 0) by (by vm_compute).
    rewrite Hempty in Hl. by rewrite lookup_empty in Hl. }
  assert (H4 : action_history (combine_states [root []]) = []) by reflexivity.
  split; [exact H1 |]. split; [exact H2 |]. split; [exact H3 |]. split; [exact H4 |].
  exact (search_constraint_needs_a_history _ _ _ binary true _ H1 H2 H3 H4).
Defined.
End further_examples.
